(** * mow-demo: the authoritative player, and the client that renders it

    A shallow embedding of
    - [backend/src/entities/Player.ts]  (module [Backend]),
    - [frontend/src/entities/Player.ts], the [Enemy] entity and
      [frontend/src/scenes/MainScene.ts]  (module [Frontend]),
    followed by the properties that the design document states about them.

    Number model.  A JavaScript [number] that holds a coordinate, a speed or
    a health value is a rational ([Q]): the finite values, with exact
    arithmetic; rounding to binary64, the infinities and NaN are outside the
    model.  Levels and experience points are integers ([Z]).  Equality of
    coordinates is therefore [Qeq] ([==]) wherever arithmetic is involved.
    The one place where rounding decides a property, the interpolation step,
    is given in binary64 as well (module [Binary64]). *)

From Stdlib Require Import ZArith QArith Qminmax Qabs Qround Lia Lqa.
From Stdlib Require Import Qpower.
From Corelib Require PrimFloat.
From stdpp Require Import gmap strings list fin_maps.

(** JavaScript truthiness of an optional boolean property: [undefined] and
    [false] are falsy. *)
Definition truthy_flag (o : option bool) : bool :=
  match o with Some true => true | _ => false end.

(** [{ x: number; y: number }] *)
Record Position := mkPosition { x : Q; y : Q }.

(* ================================================================== *)
(** * Backend: [backend/src/entities/Player.ts]                        *)
(* ================================================================== *)
Module Backend.

(** The [Partial<{left, right, up, down, direction, action}>] record: every
    property may be absent. *)
Module Input.
Record t := mk {
  left : option bool;
  right : option bool;
  up : option bool;
  down : option bool;
  direction : option string;
  action : option string
}.

(** [{}] *)
Definition empty : t := mk None None None None None None.

(** [input.action = a] *)
Definition set_action (a : string) (i : t) : t :=
  mk (left i) (right i) (up i) (down i) (direction i) (Some a).
End Input.

Module PlayerData.
Record t := mk {
  playerId : string;
  position : Position;
  level : Z;
  exp : Z;
  health : Q;
  socketId : string;
  direction : string;
  action : string
}.
End PlayerData.

Record Player := mkPlayer {
  playerId : string;
  position : Position;
  level : Z;
  exp : Z;
  health : Q;
  socketId : string;
  direction : string;
  action : string;
  isAlive : bool;
  speed : Q;
  currentInput : Input.t
}.

(** [constructor(data)]; [isAlive], [speed] and [currentInput] take their
    field initialisers. *)
Definition new_Player (data : PlayerData.t) : Player :=
  {| playerId := PlayerData.playerId data;
     position := PlayerData.position data;
     level := PlayerData.level data;
     exp := PlayerData.exp data;
     health := PlayerData.health data;
     socketId := PlayerData.socketId data;
     direction := PlayerData.direction data;
     action := PlayerData.action data;
     isAlive := true;
     speed := 100%Q;
     currentInput := Input.empty |}.

Definition with_currentInput (i : Input.t) (p : Player) : Player :=
  mkPlayer (playerId p) (position p) (level p) (exp p) (health p) (socketId p)
           (direction p) (action p) (isAlive p) (speed p) i.

Definition with_exp_level (e l : Z) (p : Player) : Player :=
  mkPlayer (playerId p) (position p) l e (health p) (socketId p)
           (direction p) (action p) (isAlive p) (speed p) (currentInput p).

(** [setInput(input)]: the new record replaces the stored one, except that an
    attack already stored is written back into it. *)
Definition setInput (input : Input.t) (p : Player) : Player :=
  let prev := currentInput p in
  if decide (Input.action prev = Some "attack"%string)
  then with_currentInput (Input.set_action "attack" input) p
  else with_currentInput input p.

(** [isAttacking()] *)
Definition isAttacking (p : Player) : bool :=
  bool_decide (Input.action (currentInput p) = Some "attack"%string).

Section Tick.
(** [TICK_RATE] is imported from [../server]; it is a parameter here. *)
Variable TICK_RATE : Q.

Local Open Scope Q_scope.

(** Lines 80-83 of [processInput]: one statement per directional flag. *)
Definition integrate (spd : Q) (input : Input.t) (pos : Position) : Position :=
  let px := x pos in
  let py := y pos in
  let px := if truthy_flag (Input.left input) then px - spd / TICK_RATE else px in
  let px := if truthy_flag (Input.right input) then px + spd / TICK_RATE else px in
  let py := if truthy_flag (Input.up input) then py - spd / TICK_RATE else py in
  let py := if truthy_flag (Input.down input) then py + spd / TICK_RATE else py in
  mkPosition px py.

(** Lines 94-95: [Math.max(0, Math.min(800, x))], [Math.max(0, Math.min(600, y))]. *)
Definition clamp (pos : Position) : Position :=
  mkPosition (Qmax 0 (Qmin 800 (x pos))) (Qmax 0 (Qmin 600 (y pos))).

(** [if (input.direction) this.direction = input.direction], and the same
    for [action]: an absent or empty string leaves the field alone. *)
Definition overwrite (field : string) (o : option string) : string :=
  match o with
  | Some s => if String.eqb s EmptyString then field else s
  | None => field
  end.

(** [processInput()] *)
Definition processInput (p : Player) : Player :=
  let input := currentInput p in
  {| playerId := playerId p;
     position := clamp (integrate (speed p) input (position p));
     level := level p;
     exp := exp p;
     health := health p;
     socketId := socketId p;
     direction := overwrite (direction p) (Input.direction input);
     action := overwrite (action p) (Input.action input);
     isAlive := isAlive p;
     speed := speed p;
     currentInput := Input.empty |}.
End Tick.

Local Open Scope Z_scope.

(** [gainExp(amount)]: the new player and the returned boolean. *)
Definition gainExp (amount : Z) (p : Player) : Player * bool :=
  let e := exp p + amount in
  if level p * 100 <=? e
  then (with_exp_level (e - level p * 100) (level p + 1) p, true)
  else (with_exp_level e (level p) p, false).

(** The resolution as the design document words it, for comparison with
    [gainExp]: "while experience >= level x 100, subtract level x 100 and
    increment level by exactly one".  [fuel] bounds the number of rounds. *)
Fixpoint resolve_levels (fuel : nat) (l e : Z) (up : bool) : Z * Z * bool :=
  match fuel with
  | O => (l, e, up)
  | S fuel' =>
      if l * 100 <=? e
      then resolve_levels fuel' (l + 1) (e - l * 100) true
      else (l, e, up)
  end.

(** From a level of at least 1 every round takes at least 100 points away, so
    [e / 100 + 1] rounds are enough. *)
Definition gainExp_looping (amount : Z) (p : Player) : Player * bool :=
  let e := exp p + amount in
  let '(l', e', up) := resolve_levels (Z.to_nat (e / 100) + 1) (level p) e false in
  (with_exp_level e' l' p, up).

End Backend.

(* ================================================================== *)
(** * Frontend: the client entities and [MainScene]                    *)
(* ================================================================== *)
Module Frontend.

(** A snapshot dictionary as it arrives from the server: the entries in
    [for ... in] order; [get] is the property read [d[k]]. *)
Definition Dict (V : Type) : Type := list (string * V).

Fixpoint get {V : Type} (d : Dict V) (k : string) : option V :=
  match d with
  | [] => None
  | (k', v) :: d' => if decide (k' = k) then Some v else get d' k
  end.

Definition keys {V : Type} (d : Dict V) : list string := map fst d.

(** Modelled from the spec: [Phaser.Math.Linear(p0, p1, t)], the library call
    behind "move the displayed position a fixed fraction of the remaining
    distance toward that target"; Phaser computes [(p1 - p0) * t + p0]. *)
Definition Linear (p0 p1 t : Q) : Q := ((p1 - p0) * t + p0)%Q.

(** ** [frontend/src/entities/Player.ts] *)
Module PlayerData.
Record t := mk {
  playerId : string;
  position : Position;
  level : Z;
  exp : Z;
  direction : string;
  action : string
}.
End PlayerData.

(** What the component uses of its [Phaser.GameObjects.Sprite]: the
    coordinates, the horizontal flip, the key handed to the last [play], and
    the number of [once("animationcomplete", ...)] handlers not yet fired. *)
Record Sprite := mkSprite {
  sprite_x : Q;
  sprite_y : Q;
  flipX : bool;
  playing : option string;
  onComplete : nat
}.

Module Player.
Record t := mk {
  playerId : string;
  sprite : Sprite;
  label : Position;
  expBar_x : Q;
  expBar_width : Q;
  levelText : Z;
  exp : Z;
  level : Z;
  isMoving : bool;
  isAttacking : bool;
  currentDirection : string;
  currentAction : string
}.

Definition with_sprite (s : Sprite) (p : t) : t :=
  mk (playerId p) s (label p) (expBar_x p) (expBar_width p) (levelText p)
     (exp p) (level p) (isMoving p) (isAttacking p) (currentDirection p)
     (currentAction p).

Definition with_isMoving (b : bool) (p : t) : t :=
  mk (playerId p) (sprite p) (label p) (expBar_x p) (expBar_width p)
     (levelText p) (exp p) (level p) b (isAttacking p) (currentDirection p)
     (currentAction p).

Definition with_isAttacking (b : bool) (p : t) : t :=
  mk (playerId p) (sprite p) (label p) (expBar_x p) (expBar_width p)
     (levelText p) (exp p) (level p) (isMoving p) b (currentDirection p)
     (currentAction p).

(** [sprite.play(key, true)] *)
Definition play (key : string) (s : Sprite) : Sprite :=
  mkSprite (sprite_x s) (sprite_y s) (flipX s) (Some key) (onComplete s).

(** [sprite.once("animationcomplete", callback, this)] *)
Definition once_animationcomplete (s : Sprite) : Sprite :=
  mkSprite (sprite_x s) (sprite_y s) (flipX s) (playing s) (S (onComplete s)).

(** [updatePosition(position)] *)
Definition updatePosition (position : Position) (p : t) : t :=
  let s := sprite p in
  mk (playerId p)
     (mkSprite (x position) (y position) (flipX s) (playing s) (onComplete s))
     (mkPosition (x position) (y position - 50)%Q)
     (expBar_x p) (expBar_width p) (levelText p) (exp p) (level p)
     (isMoving p) (isAttacking p) (currentDirection p) (currentAction p).

(** [updateExpBar(exp, level)] *)
Definition updateExpBar (e l : Z) (p : t) : t :=
  let expPercentage := ((inject_Z e / (inject_Z l * 100)) * 200)%Q in
  mk (playerId p) (sprite p) (label p)
     (400 - (200 - expPercentage) / 2)%Q expPercentage l e l
     (isMoving p) (isAttacking p) (currentDirection p) (currentAction p).

(** [updateDirection(direction)] *)
Definition updateDirection (direction : string) (p : t) : t :=
  if String.eqb direction EmptyString then p
  else
    let s := sprite p in
    let s' :=
      if decide (direction = currentDirection p) then s
      else mkSprite (sprite_x s) (sprite_y s)
                    (bool_decide (direction = "left"%string))
                    (playing s) (onComplete s) in
    mk (playerId p) s' (label p) (expBar_x p) (expBar_width p) (levelText p)
       (exp p) (level p) (isMoving p) (isAttacking p) direction
       (currentAction p).

(** [updateAction(action)] *)
Definition updateAction (action : string) (p : t) : t :=
  mk (playerId p) (sprite p) (label p) (expBar_x p) (expBar_width p)
     (levelText p) (exp p) (level p) (isMoving p) (isAttacking p)
     (currentDirection p) action.

(** [playAnimation(action, direction = this.currentDirection)]; [None] is
    the omitted argument. *)
Definition playAnimation (action : string) (direction : option string)
    (p : t) : t :=
  if isAttacking p then p
  else
    let direction := default (currentDirection p) direction in
    let '(animationKey, p) :=
      if decide (action = "idle") then
        ("idle_" +:+ direction, with_isMoving false p)
      else if decide (action = "walk") then
        ("walk_" +:+ direction, with_isMoving true p)
      else if decide (action = "attack") then
        ("attack_" +:+ direction, with_isAttacking true p)
      else if decide (action = "die") then
        ("die", p)
      else (EmptyString, p) in
    let p :=
      if String.eqb animationKey EmptyString then p
      else with_sprite (play animationKey (sprite p)) p in
    if decide (action = "attack")
    then with_sprite (once_animationcomplete (sprite p)) p
    else p.

(** The arrow function registered by [playAnimation("attack", ...)]. *)
Definition attack_complete (p : t) : t :=
  let p := with_isAttacking false p in
  playAnimation (if isMoving p then "walk" else "idle")
                (Some (currentDirection p)) p.

(** The sprite emits "animationcomplete": the [once] handlers are removed
    and each of them runs. *)
Definition animationcomplete (p : t) : t :=
  let s := sprite p in
  let n := onComplete s in
  Nat.iter n attack_complete
    (with_sprite (mkSprite (sprite_x s) (sprite_y s) (flipX s) (playing s) 0) p).

(** [new Player(scene, socket, playerData)] *)
Definition new (playerData : PlayerData.t) : t :=
  let pos := PlayerData.position playerData in
  updateExpBar (PlayerData.exp playerData) (PlayerData.level playerData)
    {| playerId := PlayerData.playerId playerData;
       sprite := mkSprite (x pos) (y pos) false (Some "idle_right"%string) 0;
       label := mkPosition (x pos) (y pos - 50)%Q;
       expBar_x := 400%Q;
       expBar_width := 200%Q;
       levelText := PlayerData.level playerData;
       exp := PlayerData.exp playerData;
       level := PlayerData.level playerData;
       isMoving := false;
       isAttacking := false;
       currentDirection := "right";
       currentAction := "idle" |}.
End Player.

(** A [Phaser.GameObjects.Rectangle] used as a health bar. *)
Record Rectangle := mkRectangle {
  rect_x : Q;
  rect_y : Q;
  width : Q;
  fillColor : Z
}.

(** The three fill colours chosen from the health percentage. *)
Definition health_colour (healthPercentage : Q) : Z :=
  if Qlt_le_dec 0.5 healthPercentage then 0x00ff00%Z
  else if Qlt_le_dec 0.2 healthPercentage then 0xffff00%Z
  else 0xff0000%Z.

(** ** The [Enemy] entity *)
Module Enemy.
Module EnemyData.
Record t := mk { id : string; position : Position; health : Q }.
End EnemyData.

Record t := mk {
  sprite : Position;
  healthBar : Rectangle;
  maxHealth : Q;
  isAlive : bool;
  targetPosition : Position;
  currentHealth : Q
}.

(** [new Enemy(scene, enemyData)] *)
Definition new (enemyData : EnemyData.t) : t :=
  let pos := EnemyData.position enemyData in
  {| sprite := mkPosition (x pos) (y pos);
     healthBar := mkRectangle (x pos) (y pos - 30)%Q 40%Q 0x00ff00%Z;
     maxHealth := EnemyData.health enemyData;
     isAlive := true;
     targetPosition := pos;
     currentHealth := EnemyData.health enemyData |}.

(** [updatePosition(position)] *)
Definition updatePosition (position : Position) (e : t) : t :=
  mk (sprite e) (healthBar e) (maxHealth e) (isAlive e) position
     (currentHealth e).

(** [updateHealth(health)] *)
Definition updateHealth (health : Q) (e : t) : t :=
  let healthPercentage := (health / maxHealth e)%Q in
  let bar := healthBar e in
  mk (sprite e)
     (mkRectangle (rect_x bar) (rect_y bar) (healthPercentage * 40)%Q
                  (health_colour healthPercentage))
     (maxHealth e) (isAlive e) (targetPosition e) health.

(** [interpolate()] *)
Definition interpolate (e : t) : t :=
  let t := 0.1%Q in
  let sx := Linear (x (sprite e)) (x (targetPosition e)) t in
  let sy := Linear (y (sprite e)) (y (targetPosition e)) t in
  let bar := healthBar e in
  mk (mkPosition sx sy)
     (mkRectangle sx (sy - 30)%Q (width bar) (fillColor bar))
     (maxHealth e) (isAlive e) (targetPosition e) (currentHealth e).
End Enemy.

(** ** [frontend/src/scenes/MainScene.ts] *)
Module MainScene.
Module EnemyData.
Record t := mk { position : Position; health : Q }.
End EnemyData.

(** The argument of [updateGameState]. *)
Module GameState.
Record t := mk {
  players : Dict PlayerData.t;
  enemies : Dict EnemyData.t
}.
End GameState.

(** An entry of [this.enemies]; [maxWidth] is the property attached to the
    health bar by [createEnemy]. *)
Module EnemyObj.
Record t := mk {
  sprite : Position;
  healthBar : Rectangle;
  maxWidth : Q;
  maxHealth : Q;
  prevPosition : Position;
  targetPosition : Position
}.
End EnemyObj.

(** What [destroy()] has been called on: a player component (its sprite,
    label, experience bar and level text go together) or the sprite and
    health bar of an enemy entry, with the key it was stored under. *)
Inductive Destroyed :=
| DestroyedPlayer (id : string) (p : Player.t)
| DestroyedEnemy (id : string) (e : EnemyObj.t).

(** The scene: [this.playerId], the two dictionaries, and the display
    objects destroyed so far, oldest first.  [this.player] is a second
    reference to [this.players[this.playerId]] read only by [update()]; it
    is not represented. *)
Record t := mk {
  playerId : string;
  players : gmap string Player.t;
  enemies : gmap string EnemyObj.t;
  destroyed : list Destroyed
}.

Definition with_players (ps : gmap string Player.t) (s : t) : t :=
  mk (playerId s) ps (enemies s) (destroyed s).

Definition with_enemies (es : gmap string EnemyObj.t) (s : t) : t :=
  mk (playerId s) (players s) es (destroyed s).

(** [createPlayer(playerData)] *)
Definition createPlayer (playerData : PlayerData.t) (s : t) : t :=
  with_players (<[playerId s := Player.new playerData]> (players s)) s.

(** [createOtherPlayer(playerData)] *)
Definition createOtherPlayer (playerData : PlayerData.t) (s : t) : t :=
  match players s !! PlayerData.playerId playerData with
  | Some _ => s
  | None =>
      with_players
        (<[PlayerData.playerId playerData := Player.new playerData]> (players s)) s
  end.

(** [createEnemy(id, enemyData)] *)
Definition createEnemy (id : string) (enemyData : EnemyData.t) (s : t) : t :=
  let pos := EnemyData.position enemyData in
  with_enemies
    (<[id := {| EnemyObj.sprite := mkPosition (x pos) (y pos);
                EnemyObj.healthBar :=
                  mkRectangle (x pos) (y pos - 30)%Q 40%Q 0x00ff00%Z;
                EnemyObj.maxWidth := 40%Q;
                EnemyObj.maxHealth := EnemyData.health enemyData;
                EnemyObj.prevPosition := mkPosition (x pos) (y pos);
                EnemyObj.targetPosition := mkPosition (x pos) (y pos) |}]>
       (enemies s)) s.

(** Body of the first loop of [updateGameState], lines 244-261. *)
Definition sync_player (state : GameState.t) (s : t) (id : string) : t :=
  match get (GameState.players state) id with
  | None => s
  | Some serverPlayer =>
      match players s !! id with
      | Some p =>
          let p := Player.updatePosition (PlayerData.position serverPlayer) p in
          let p := Player.updateDirection (PlayerData.direction serverPlayer) p in
          let p := Player.updateAction (PlayerData.action serverPlayer) p in
          let p := Player.playAnimation (PlayerData.action serverPlayer) None p in
          let p :=
            if decide (id = playerId s)
            then Player.updateExpBar (PlayerData.exp serverPlayer)
                                     (PlayerData.level serverPlayer) p
            else p in
          with_players (<[id := p]> (players s)) s
      | None =>
          if decide (id = playerId s)
          then createPlayer serverPlayer s
          else createOtherPlayer serverPlayer s
      end
  end.

(** Body of the second loop, lines 263-268. *)
Definition drop_player (state : GameState.t) (s : t) (id : string) : t :=
  match get (GameState.players state) id, players s !! id with
  | None, Some p =>
      mk (playerId s) (delete id (players s)) (enemies s)
         (destroyed s ++ [DestroyedPlayer id p])
  | _, _ => s
  end.

(** Body of the third loop, lines 270-291. *)
Definition sync_enemy (state : GameState.t) (s : t) (id : string) : t :=
  match get (GameState.enemies state) id with
  | None => s
  | Some serverEnemy =>
      match enemies s !! id with
      | Some enemyObj =>
          let pos := EnemyData.position serverEnemy in
          let bar := EnemyObj.healthBar enemyObj in
          let healthPercentage :=
            (EnemyData.health serverEnemy / EnemyObj.maxHealth enemyObj)%Q in
          with_enemies
            (<[id := {| EnemyObj.sprite := EnemyObj.sprite enemyObj;
                        EnemyObj.healthBar :=
                          mkRectangle (rect_x bar) (rect_y bar)
                            (healthPercentage * EnemyObj.maxWidth enemyObj)%Q
                            (health_colour healthPercentage);
                        EnemyObj.maxWidth := EnemyObj.maxWidth enemyObj;
                        EnemyObj.maxHealth := EnemyObj.maxHealth enemyObj;
                        EnemyObj.prevPosition := EnemyObj.prevPosition enemyObj;
                        EnemyObj.targetPosition := mkPosition (x pos) (y pos) |}]>
               (enemies s)) s
      | None => createEnemy id serverEnemy s
      end
  end.

(** Body of the fourth loop, lines 293-299. *)
Definition drop_enemy (state : GameState.t) (s : t) (id : string) : t :=
  match get (GameState.enemies state) id, enemies s !! id with
  | None, Some e =>
      mk (playerId s) (players s) (delete id (enemies s))
         (destroyed s ++ [DestroyedEnemy id e])
  | _, _ => s
  end.

(** [for (const id in obj)] over a dictionary of the scene: the keys are
    fixed when the loop starts, and a body deletes its own key at most.  The
    order in which the keys come decides the order of the [destroy()] calls
    and nothing else. *)
Definition own_keys {V : Type} (m : gmap string V) : list string :=
  (map_to_list m).*1.

(** [updateGameState(state)] *)
Definition updateGameState (state : GameState.t) (s : t) : t :=
  let s := fold_left (sync_player state) (keys (GameState.players state)) s in
  let s := fold_left (drop_player state) (own_keys (players s)) s in
  let s := fold_left (sync_enemy state) (keys (GameState.enemies state)) s in
  let s := fold_left (drop_enemy state) (own_keys (enemies s)) s in
  s.

(** One enemy entry in [interpolateEnemyPositions], lines 304-313. *)
Definition interpolateEnemy (enemyObj : EnemyObj.t) : EnemyObj.t :=
  let t := 0.1%Q in
  let sx := Linear (x (EnemyObj.sprite enemyObj))
                   (x (EnemyObj.targetPosition enemyObj)) t in
  let sy := Linear (y (EnemyObj.sprite enemyObj))
                   (y (EnemyObj.targetPosition enemyObj)) t in
  let bar := EnemyObj.healthBar enemyObj in
  {| EnemyObj.sprite := mkPosition sx sy;
     EnemyObj.healthBar := mkRectangle sx (sy - 30)%Q (width bar) (fillColor bar);
     EnemyObj.maxWidth := EnemyObj.maxWidth enemyObj;
     EnemyObj.maxHealth := EnemyObj.maxHealth enemyObj;
     EnemyObj.prevPosition := EnemyObj.prevPosition enemyObj;
     EnemyObj.targetPosition := EnemyObj.targetPosition enemyObj |}.

(** [interpolateEnemyPositions()]: every entry takes one step. *)
Definition interpolateEnemyPositions (s : t) : t :=
  with_enemies (interpolateEnemy <$> enemies s) s.
End MainScene.

End Frontend.

(* ================================================================== *)
(** * The rest of the scene: frames, socket events, ids, animations    *)
(* ================================================================== *)
Module Scene.
Import Stdlib.Strings.Ascii.
Import Frontend.

(** ** [update(_time, _delta)] *)

(** What a frame reads from the keyboard: [isDown] of the four cursor keys
    and the answer of [checkDown(this.cursors.space, 250)]. *)
Record CursorKeys := mkCursorKeys {
  left_isDown : bool;
  right_isDown : bool;
  up_isDown : bool;
  down_isDown : bool;
  space_checkDown : bool
}.

(** [this.currentInputs]: the four properties that [update] assigns; all
    absent in the initial [{}]. *)
Module CurrentInputs.
Record t := mk {
  left : option bool;
  right : option bool;
  up : option bool;
  down : option bool
}.

Definition empty : t := mk None None None None.

(** [Object.values(this.currentInputs).some((value) => value === true)] *)
Definition some_true (i : t) : bool :=
  truthy_flag (left i) || truthy_flag (right i)
  || truthy_flag (up i) || truthy_flag (down i).
End CurrentInputs.

(** [{ ...this.currentInputs, direction, action }], the payload of
    "playerInput"; it has the shape of the record that the server's
    [setInput] takes. *)
Definition playerInput (i : CurrentInputs.t) (direction action : string)
  : Backend.Input.t :=
  Backend.Input.mk (CurrentInputs.left i) (CurrentInputs.right i)
                   (CurrentInputs.up i) (CurrentInputs.down i)
                   (Some direction) (Some action).

(** One frame.  [player] is [this.player]; [cursors] is [None] when the
    scene has no keyboard, in which case [create] made no cursor keys and
    [this.input.keyboard?.checkDown(...)] is [undefined].  The result is the
    new [this.currentInputs], the packet emitted (if any), and the scene
    after [interpolateEnemyPositions]. *)
Definition update (player : option Player.t) (cursors : option CursorKeys)
    (currentInputs : CurrentInputs.t) (s : MainScene.t)
  : CurrentInputs.t * option Backend.Input.t * MainScene.t :=
  let '(currentInputs, emitted) :=
    match player with
    | None => (currentInputs, None)
    | Some pl =>
        let direction := Player.currentDirection pl in
        let currentInputs :=
          match cursors with
          | Some c =>
              CurrentInputs.mk (Some (left_isDown c)) (Some (right_isDown c))
                               (Some (up_isDown c)) (Some (down_isDown c))
          | None => currentInputs
          end in
        let isAttacking :=
          match cursors with
          | Some c => space_checkDown c
          | None => false
          end in
        let isWalking := CurrentInputs.some_true currentInputs in
        if isAttacking then
          (currentInputs, Some (playerInput currentInputs direction "attack"))
        else if isWalking then
          let direction :=
            if truthy_flag (CurrentInputs.up currentInputs) then "up"%string
            else if truthy_flag (CurrentInputs.down currentInputs) then "down"%string
            else if truthy_flag (CurrentInputs.left currentInputs) then "left"%string
            else if truthy_flag (CurrentInputs.right currentInputs) then "right"%string
            else direction in
          (currentInputs, Some (playerInput currentInputs direction "walk"))
        else
          (currentInputs, Some (playerInput currentInputs direction "idle"))
    end in
  (currentInputs, emitted, MainScene.interpolateEnemyPositions s).

(** ** The socket handlers of [setupSocketEvents] *)

(** "init": [data.playerData] is not read. *)
Definition on_init (playerData : PlayerData.t) (players : Dict PlayerData.t)
    (enemies : Dict MainScene.EnemyData.t) (s : MainScene.t) : MainScene.t :=
  MainScene.updateGameState (MainScene.GameState.mk players enemies) s.

(** "gameState" *)
Definition on_gameState (state : MainScene.GameState.t) (s : MainScene.t)
  : MainScene.t :=
  MainScene.updateGameState state s.

(** The property names that a plain object literal inherits from
    [Object.prototype] (ECMAScript, Annex B included).  [this.players] is
    such an object, so [this.players[id]] is truthy for these names even
    when the scene holds no player under them: it reads the inherited
    member. *)
Definition Object_prototype : list string :=
  ["constructor"; "__defineGetter__"; "__defineSetter__"; "hasOwnProperty";
   "__lookupGetter__"; "__lookupSetter__"; "isPrototypeOf";
   "propertyIsEnumerable"; "toString"; "valueOf"; "__proto__";
   "toLocaleString"]%string.

Definition inherited (id : string) : bool :=
  bool_decide (id ∈ Object_prototype).

(** "playerJoined": [if (!this.players[playerData.playerId])].  The read is
    truthy for an entry of the scene and for an inherited member. *)
Definition on_playerJoined (playerData : PlayerData.t) (s : MainScene.t)
  : MainScene.t :=
  match MainScene.players s !! PlayerData.playerId playerData with
  | Some _ => s
  | None =>
      if inherited (PlayerData.playerId playerData) then s
      else MainScene.createOtherPlayer playerData s
  end.

(** "playerLeft": [if (this.players[leftPlayerId])], then [destroy()] and
    [delete].  For an inherited member the read is truthy, the member has no
    [destroy], and the call throws a [TypeError]: the result is [None]. *)
Definition on_playerLeft (leftPlayerId : string) (s : MainScene.t)
  : option MainScene.t :=
  match MainScene.players s !! leftPlayerId with
  | Some p =>
      Some (MainScene.mk (MainScene.playerId s)
              (delete leftPlayerId (MainScene.players s))
              (MainScene.enemies s)
              (MainScene.destroyed s
               ++ [MainScene.DestroyedPlayer leftPlayerId p]))
  | None => if inherited leftPlayerId then None else Some s
  end.

(** ** [generateUUID()] *)

(** [n | 0] for a finite number: the fraction is dropped and the integer
    wraps into 32 signed bits. *)
Definition truncate (q : Q) : Z :=
  if Qlt_le_dec q 0 then Qceiling q else Qfloor q.

Definition to_int32 (z : Z) : Z := ((z + 2 ^ 31) mod 2 ^ 32 - 2 ^ 31)%Z.

Definition hex_char (d : Z) : Ascii.ascii :=
  nth (Z.to_nat d) (String.list_ascii_of_string "0123456789abcdef") "0"%char.

Fixpoint hex_digits (fuel : nat) (n : Z) : string :=
  match fuel with
  | O => EmptyString
  | S fuel' =>
      if (n <? 16)%Z then String (hex_char n) EmptyString
      else hex_digits fuel' (n / 16) +:+ String (hex_char (n mod 16)) EmptyString
  end.

(** [v.toString(16)] for an integer [v]; the number of digits is at most
    [log2 v + 1]. *)
Definition toString16 (v : Z) : string :=
  if (v <? 0)%Z
  then "-" +:+ hex_digits (Z.to_nat (Z.log2 (- v)) + 1) (- v)
  else hex_digits (Z.to_nat (Z.log2 v) + 1) v.

(** The callback of [replace]: [random] is what [Math.random()] returns. *)
Definition uuid_digit (c : Ascii.ascii) (random : Q) : string :=
  let r := to_int32 (truncate (random * 16)) in
  let v := if Ascii.eqb c "x"%char then r else Z.lor (Z.land r 0x3) 0x8 in
  toString16 v.

(** [template.replace(/[xy]/g, callback)]: the characters are visited from
    the left, the [k]-th call of the callback draws [random k]. *)
Fixpoint replace_xy (random : nat -> Q) (k : nat) (template : string) : string :=
  match template with
  | EmptyString => EmptyString
  | String c rest =>
      if Ascii.eqb c "x"%char || Ascii.eqb c "y"%char
      then uuid_digit c (random k) +:+ replace_xy random (S k) rest
      else String c (replace_xy random k rest)
  end.

Definition template : string := "xxxxxxxx-xxxx-4xxx-yxxx-xxxxxxxxxxxx".

Definition generateUUID (random : nat -> Q) : string :=
  replace_xy random 0 template.

(** What may stand in the result where the template has [c]: a hexadecimal
    digit for an x, one of 8, 9, a, b for the y, and [c] itself otherwise. *)
Definition uuid_char (c c' : ascii) : Prop :=
  if Ascii.eqb c "x"%char
  then c' ∈ String.list_ascii_of_string "0123456789abcdef"
  else if Ascii.eqb c "y"%char then c' ∈ String.list_ascii_of_string "89ab"
  else c' = c.

(** ** [Player.createAnimations(scene)] *)

(** The configuration handed to [scene.anims.create]: the key, the first
    and last frame number, the frame rate and the repeat count. *)
Record AnimConfig := mkAnim {
  key : string;
  first_frame : Z;
  last_frame : Z;
  frameRate : Z;
  repeat : Z
}.

Definition createAnimations : list AnimConfig :=
  [ mkAnim "idle" 0 5 6 (-1);
    mkAnim "idle_down" 0 5 6 (-1);
    mkAnim "idle_right" 6 11 6 (-1);
    mkAnim "idle_left" 6 11 6 (-1);
    mkAnim "idle_up" 12 17 6 (-1);
    mkAnim "walk_down" 18 23 6 (-1);
    mkAnim "walk_right" 24 29 6 (-1);
    mkAnim "walk_left" 24 29 6 (-1);
    mkAnim "walk_up" 30 35 6 (-1);
    mkAnim "attack_down" 36 39 12 0;
    mkAnim "attack_left" 42 45 12 0;
    mkAnim "attack_right" 42 45 12 0;
    mkAnim "attack_up" 48 51 12 0;
    mkAnim "die" 54 56 6 0 ].

End Scene.

(* ================================================================== *)
(** * Sample values and the vocabulary of the properties               *)
(* ================================================================== *)

(** A freshly constructed server player with the given level and
    experience, standing at (400, 300). *)
Definition server_player (l e : Z) : Backend.Player :=
  Backend.new_Player
    {| Backend.PlayerData.playerId := "p1";
       Backend.PlayerData.position := mkPosition 400 300;
       Backend.PlayerData.level := l;
       Backend.PlayerData.exp := e;
       Backend.PlayerData.health := 100%Q;
       Backend.PlayerData.socketId := "s1";
       Backend.PlayerData.direction := "right";
       Backend.PlayerData.action := "idle" |}.

(** [{ action: "attack" }] and [{ left: true }] *)
Definition input_attack : Backend.Input.t :=
  Backend.Input.mk None None None None None (Some "attack"%string).

Definition input_left : Backend.Input.t :=
  Backend.Input.mk (Some true) None None None None None.

(** [{ left: true, up: true, direction: "up", action: "walk" }] *)
Definition input_up_left : Backend.Input.t :=
  Backend.Input.mk (Some true) None (Some true) None
                   (Some "up"%string) (Some "walk"%string).

(** The displacement contributed by one directional flag: [d] when the flag
    is pressed, nothing otherwise. *)
Definition step_of (pressed : option bool) (d : Q) : Q :=
  if truthy_flag pressed then d else 0%Q.

(** One frame of interpolation on one axis, as both [Enemy.interpolate] and
    [interpolateEnemyPositions] perform it. *)
Definition toward (target v : Q) : Q := Frontend.Linear v target 0.1.

(** The same step on the numbers the client really computes with, IEEE 754
    binary64. *)
Module Binary64.
Import PrimFloat.

(** Modelled from the spec: [Phaser.Math.Linear(p0, p1, t)], as
    [Frontend.Linear], every operation rounded to binary64. *)
Definition Linear (p0 p1 t : float) : float := ((p1 - p0) * t + p0)%float.

(** The binary64 number that the literal [0.1] denotes. *)
Definition t : float := 0x1.999999999999ap-4%float.

Definition toward (target v : float) : float := Linear v target t.
End Binary64.

(** A number of frames after which a remaining distance [distance] has
    shrunk below [eps]. *)
Definition frames_within (distance eps : Q) : nat :=
  Z.to_nat (Qceiling (9 * Qabs distance / eps)).

(** An enemy drawn at the origin whose target is (100, 50). *)
Definition far_enemy : Frontend.Enemy.t :=
  Frontend.Enemy.updatePosition (mkPosition 100 50)
    (Frontend.Enemy.new
       {| Frontend.Enemy.EnemyData.id := "e1";
          Frontend.Enemy.EnemyData.position := mkPosition 0 0;
          Frontend.Enemy.EnemyData.health := 50%Q |}).

(** A scene whose one enemy entry is drawn at the origin and has the target
    (100, 50). *)
Definition far_entry : Frontend.MainScene.EnemyObj.t :=
  Frontend.MainScene.EnemyObj.mk (mkPosition 0 0)
    (Frontend.mkRectangle 0 (-30) 40 0x00ff00) 40 50 (mkPosition 0 0)
    (mkPosition 100 50).

Definition far_scene : Frontend.MainScene.t :=
  Frontend.MainScene.mk "me" ∅ {["e1"%string := far_entry]} [].

(** The client component built from a snapshot entry, and the same
    component once [playAnimation("attack")] has run. *)
Definition client_player : Frontend.Player.t :=
  Frontend.Player.new
    {| Frontend.PlayerData.playerId := "p1";
       Frontend.PlayerData.position := mkPosition 400 300;
       Frontend.PlayerData.level := 1;
       Frontend.PlayerData.exp := 20;
       Frontend.PlayerData.direction := "right";
       Frontend.PlayerData.action := "idle" |}.

Definition attacking_player : Frontend.Player.t :=
  Frontend.Player.playAnimation "attack" None
    (Frontend.Player.playAnimation "walk" (Some "up"%string) client_player).

(** What can happen to a client component between its construction and its
    destruction: a call of one of its methods, or the sprite reporting that
    a non-looping animation has run to its end. *)
Inductive PlayerEvent :=
| CallUpdatePosition (position : Position)
| CallUpdateExpBar (exp level : Z)
| CallUpdateDirection (direction : string)
| CallUpdateAction (action : string)
| CallPlayAnimation (action : string) (direction : option string)
| AnimationComplete.

Definition react (p : Frontend.Player.t) (ev : PlayerEvent) : Frontend.Player.t :=
  match ev with
  | CallUpdatePosition position => Frontend.Player.updatePosition position p
  | CallUpdateExpBar e l => Frontend.Player.updateExpBar e l p
  | CallUpdateDirection d => Frontend.Player.updateDirection d p
  | CallUpdateAction a => Frontend.Player.updateAction a p
  | CallPlayAnimation a d => Frontend.Player.playAnimation a d p
  | AnimationComplete => Frontend.Player.animationcomplete p
  end.

(** A completion handler is pending exactly while the flag is set. *)
Definition handler_pending (p : Frontend.Player.t) : Prop :=
  Frontend.onComplete (Frontend.Player.sprite p)
  = if Frontend.Player.isAttacking p then 1%nat else 0%nat.

(** Where a player component is drawn: its sprite and its label. *)
Definition shown_at (position : Position) (p : Frontend.Player.t) : Prop :=
  Frontend.sprite_x (Frontend.Player.sprite p) = x position /\
  Frontend.sprite_y (Frontend.Player.sprite p) = y position /\
  Frontend.Player.label p = mkPosition (x position) (y position - 50)%Q.

(** An enemy entry that has been given a new target and is still drawn
    where it was. *)
Definition retargeted (position : Position)
    (e e' : Frontend.MainScene.EnemyObj.t) : Prop :=
  Frontend.MainScene.EnemyObj.sprite e' = Frontend.MainScene.EnemyObj.sprite e /\
  Frontend.rect_x (Frontend.MainScene.EnemyObj.healthBar e')
  = Frontend.rect_x (Frontend.MainScene.EnemyObj.healthBar e) /\
  Frontend.rect_y (Frontend.MainScene.EnemyObj.healthBar e')
  = Frontend.rect_y (Frontend.MainScene.EnemyObj.healthBar e) /\
  Frontend.MainScene.EnemyObj.targetPosition e' = position.

(** Two snapshots in a row, received by the scene of player "me": the
    second one lacks the player "other" and the enemy "e2". *)
Definition snapshot_entry (id : string) (px py : Q) : Frontend.PlayerData.t :=
  {| Frontend.PlayerData.playerId := id;
     Frontend.PlayerData.position := mkPosition px py;
     Frontend.PlayerData.level := 1;
     Frontend.PlayerData.exp := 20;
     Frontend.PlayerData.direction := "left";
     Frontend.PlayerData.action := "walk" |}.

Definition first_snapshot : Frontend.MainScene.GameState.t :=
  {| Frontend.MainScene.GameState.players :=
       [("me"%string, snapshot_entry "me" 100 100);
        ("other"%string, snapshot_entry "other" 300 300)];
     Frontend.MainScene.GameState.enemies :=
       [("e1"%string, Frontend.MainScene.EnemyData.mk (mkPosition 10 10) 50);
        ("e2"%string, Frontend.MainScene.EnemyData.mk (mkPosition 700 500) 50)] |}.

Definition second_snapshot : Frontend.MainScene.GameState.t :=
  {| Frontend.MainScene.GameState.players :=
       [("me"%string, snapshot_entry "me" 105 100)];
     Frontend.MainScene.GameState.enemies :=
       [("e1"%string, Frontend.MainScene.EnemyData.mk (mkPosition 20 30) 20)] |}.

Definition joined_scene : Frontend.MainScene.t :=
  Frontend.MainScene.updateGameState first_snapshot
    (Frontend.MainScene.mk "me" ∅ ∅ []).

(** All the experience a server player has earned: what is left in [exp]
    plus the thresholds 100, 200, ..., (level - 1) x 100 already paid. *)
Definition total_exp (p : Backend.Player) : Z :=
  (Backend.exp p + 50 * Backend.level p * (Backend.level p - 1))%Z.

(** The action of a record is "attack". *)
Definition is_attack (i : Backend.Input.t) : bool :=
  bool_decide (Backend.Input.action i = Some "attack"%string).

(** The position lies in the world rectangle. *)
Definition in_world (pos : Position) : Prop :=
  (0 <= x pos <= 800 /\ 0 <= y pos <= 600)%Q.

(** The four directions and the four actions that have animations. *)
Definition directions : list string := ["up"; "down"; "left"; "right"]%string.

Definition actions : list string := ["idle"; "walk"; "attack"; "die"]%string.

(** The sprite is mirrored exactly when the component faces left. *)
Definition mirrored_when_left (p : Frontend.Player.t) : Prop :=
  Frontend.flipX (Frontend.Player.sprite p)
  = bool_decide (Frontend.Player.currentDirection p = "left"%string).

(** The colour of a health bar for [health] out of [maxHealth]: green above
    one half, yellow above one fifth, red otherwise. *)
Definition bar_colour (health maxHealth : Q) : Z :=
  if Qlt_le_dec maxHealth (2 * health) then 0x00ff00%Z
  else if Qlt_le_dec maxHealth (5 * health) then 0xffff00%Z
  else 0xff0000%Z.

(** Every entry of the snapshot that is not the scene's own player is
    stored under the [playerId] it carries. *)
Definition keyed_by_playerId (localId : string)
    (players : Frontend.Dict Frontend.PlayerData.t) : Prop :=
  forall id serverPlayer,
    Frontend.get players id = Some serverPlayer ->
    id <> localId ->
    Frontend.PlayerData.playerId serverPlayer = id.

(** The key of a destroyed entry is absent from the snapshot. *)
Definition missing_from (state : Frontend.MainScene.GameState.t)
    (d : Frontend.MainScene.Destroyed) : Prop :=
  match d with
  | Frontend.MainScene.DestroyedPlayer id _ =>
      Frontend.get (Frontend.MainScene.GameState.players state) id = None
  | Frontend.MainScene.DestroyedEnemy id _ =>
      Frontend.get (Frontend.MainScene.GameState.enemies state) id = None
  end.

(** The health bar of [e'] shows [health] out of the maximum of [e]. *)
Definition bar_shows (health : Q) (e e' : Frontend.MainScene.EnemyObj.t) : Prop :=
  Frontend.MainScene.EnemyObj.maxHealth e' = Frontend.MainScene.EnemyObj.maxHealth e /\
  Frontend.MainScene.EnemyObj.maxWidth e' = Frontend.MainScene.EnemyObj.maxWidth e /\
  Frontend.width (Frontend.MainScene.EnemyObj.healthBar e')
  = (health / Frontend.MainScene.EnemyObj.maxHealth e
     * Frontend.MainScene.EnemyObj.maxWidth e)%Q /\
  Frontend.fillColor (Frontend.MainScene.EnemyObj.healthBar e')
  = Frontend.health_colour (health / Frontend.MainScene.EnemyObj.maxHealth e).

(** Whether the cursor key of a direction is down, and whether any is. *)
Definition isDown (c : Scene.CursorKeys) (d : string) : bool :=
  if decide (d = "up"%string) then Scene.up_isDown c
  else if decide (d = "down"%string) then Scene.down_isDown c
  else if decide (d = "left"%string) then Scene.left_isDown c
  else if decide (d = "right"%string) then Scene.right_isDown c
  else false.

Definition any_down (c : Scene.CursorKeys) : bool :=
  Scene.left_isDown c || Scene.right_isDown c
  || Scene.up_isDown c || Scene.down_isDown c.

(** The action a frame reports: an attack wins over walking. *)
Definition frame_action (c : Scene.CursorKeys) : string :=
  if Scene.space_checkDown c then "attack"
  else if any_down c then "walk" else "idle".

(** A snapshot whose only entry is stored under the connection id "s-2"
    and carries the player id "other". *)
Definition miskeyed_snapshot : Frontend.MainScene.GameState.t :=
  {| Frontend.MainScene.GameState.players :=
       [("s-2"%string, snapshot_entry "other" 300 300)];
     Frontend.MainScene.GameState.enemies := [] |}.

(* ================================================================== *)
(** * Properties of the backend player                                 *)
(* ================================================================== *)
Section BackendProperties.
Import Backend.

(** ** Experience and levels *)

Local Open Scope Z_scope.

Example gainExp_90_30 :
  let r := gainExp 30 (server_player 1 90) in
  exp r.1 = 20 /\ level r.1 = 2 /\ r.2 = true.
Proof. vm_compute. auto. Qed.

Example gainExp_0_250 :
  let r := gainExp 250 (server_player 1 0) in
  exp r.1 = 150 /\ level r.1 = 2 /\ r.2 = true.
Proof. vm_compute. auto. Qed.

(** The looping resolution stops at the same place for a gain of 250: the
    second threshold is 200, and 150 points are left. *)
Example gainExp_looping_0_250 :
  gainExp_looping 250 (server_player 1 0) = gainExp 250 (server_player 1 0).
Proof. vm_compute. reflexivity. Qed.

(** A gain of 300 is where the single branch and the loop part: the branch
    leaves 200 points at level 2, the loop goes on to level 3. *)
Example gainExp_0_300 :
  let r := gainExp 300 (server_player 1 0) in
  let r' := gainExp_looping 300 (server_player 1 0) in
  (exp r.1 = 200 /\ level r.1 = 2) /\ (exp r'.1 = 0 /\ level r'.1 = 3).
Proof. vm_compute. auto. Qed.

(** With enough rounds the loop runs to its exit condition. *)
Lemma resolve_levels_exit (fuel : nat) (l e : Z) (up : bool) :
  1 <= l -> e < Z.of_nat fuel * 100 ->
  let '(l', e', _) := resolve_levels fuel l e up in e' < l' * 100.
Proof.
  revert l e up. induction fuel as [|fuel IH]; intros l e up Hl He.
  - simpl. lia.
  - simpl. destruct (Z.leb_spec (l * 100) e) as [Hge|Hlt].
    + apply IH; lia.
    + exact Hlt.
Qed.

Lemma gainExp_looping_exit (amount : Z) (p : Player) :
  1 <= level p ->
  let r := gainExp_looping amount p in exp r.1 < level r.1 * 100.
Proof.
  intros Hl. unfold gainExp_looping.
  pose proof (resolve_levels_exit
                (Z.to_nat ((exp p + amount) / 100) + 1) (level p)
                (exp p + amount) false Hl) as H.
  destruct (resolve_levels _ _ _ _) as [[l' e'] up]. simpl.
  apply H.
  destruct (Z.le_gt_cases 0 (exp p + amount)) as [Hpos|Hneg].
  - pose proof (Z.div_le_lower_bound (exp p + amount) 100 0) as Hd.
    pose proof (Z_div_mod_eq_full (exp p + amount) 100).
    pose proof (Z.mod_pos_bound (exp p + amount) 100).
    lia.
  - lia.
Qed.

(** C1 (as stated): from level 1 with no experience, a gain of 250 does not
    end at level 3 with 50 points; it ends at level 2 with 150. *)
Lemma gainExp_250_is_not_level_3 :
  let r := gainExp 250 (server_player 1 0) in
  ~ (exp r.1 = 50 /\ level r.1 = 3).
Proof. vm_compute. intros [H _]. discriminate H. Qed.

(** C1 (amended): for a level of at least 1 and a gain that crosses at most
    one threshold, [gainExp] adds the amount and, if the experience has
    reached level x 100, subtracts level x 100 and increments the level by
    one; this is what the looping resolution gives; it returns true iff the
    level was incremented, and the remaining experience is below the new
    threshold. *)
Theorem gainExp_one_threshold (p : Player) (amount : Z) :
  1 <= level p ->
  exp p + amount < level p * 100 + (level p + 1) * 100 ->
  let r := gainExp amount p in
  r = gainExp_looping amount p /\
  exp r.1 = exp p + amount - (if r.2 then level p * 100 else 0) /\
  level r.1 = level p + (if r.2 then 1 else 0) /\
  (r.2 = true <-> level p * 100 <= exp p + amount) /\
  exp r.1 < level r.1 * 100.
Proof.
  intros Hl Hone. cbv zeta.
  assert (Hloop : gainExp amount p = gainExp_looping amount p).
  { unfold gainExp, gainExp_looping.
    destruct (Z.leb_spec (level p * 100) (exp p + amount)) as [Hge|Hlt].
    - assert (Hfuel : exists k, (Z.to_nat ((exp p + amount) / 100) + 1)%nat = S (S k)).
      { assert (1 <= (exp p + amount) / 100)
          by (apply Z.div_le_lower_bound; lia).
        exists (Z.to_nat ((exp p + amount) / 100) - 1)%nat. lia. }
      destruct Hfuel as [k ->]. simpl.
      destruct (Z.leb_spec (level p * 100) (exp p + amount)); [|lia].
      destruct (Z.leb_spec ((level p + 1) * 100)
                           (exp p + amount - level p * 100)); [lia|].
      reflexivity.
    - rewrite Nat.add_1_r. simpl.
      destruct (Z.leb_spec (level p * 100) (exp p + amount)); [lia|].
      reflexivity. }
  split; [exact Hloop|].
  unfold gainExp.
  destruct (Z.leb_spec (level p * 100) (exp p + amount)) as [Hge|Hlt]; simpl.
  - repeat split; auto; try lia.
  - repeat split; try lia; try discriminate.
Qed.

Lemma gainExp_one_threshold_witness :
  let p := server_player 1 90 in
  let r := gainExp 30 p in
  1 <= level p /\
  exp p + 30 < level p * 100 + (level p + 1) * 100 /\
  r = gainExp_looping 30 p /\
  exp r.1 = exp p + 30 - (if r.2 then level p * 100 else 0) /\
  level r.1 = level p + (if r.2 then 1 else 0) /\
  (r.2 = true <-> level p * 100 <= exp p + 30) /\
  exp r.1 < level r.1 * 100.
Proof.
  split; [vm_compute; discriminate|].
  split; [vm_compute; reflexivity|].
  apply (gainExp_one_threshold (server_player 1 90) 30).
  - vm_compute; discriminate.
  - vm_compute; reflexivity.
Defined.

(** ** The input buffer *)

Lemma setInput_latched (input : Input.t) (p : Player) :
  Input.action (currentInput p) = Some "attack"%string ->
  currentInput (setInput input p) = Input.set_action "attack" input.
Proof.
  intros Hprev. unfold setInput.
  destruct (decide (Input.action (currentInput p) = Some "attack"%string));
    [reflexivity | contradiction].
Qed.

Lemma setInput_not_latched (input : Input.t) (p : Player) :
  Input.action (currentInput p) <> Some "attack"%string ->
  currentInput (setInput input p) = input.
Proof.
  intros Hprev. unfold setInput.
  destruct (decide (Input.action (currentInput p) = Some "attack"%string));
    [contradiction | reflexivity].
Qed.

Lemma setInput_many_latched (inputs : list Input.t) (p : Player) :
  Input.action (currentInput p) = Some "attack"%string ->
  Input.action (currentInput (fold_left (fun q i => setInput i q) inputs p))
  = Some "attack"%string.
Proof.
  revert p. induction inputs as [|i inputs IH]; intros p Hp; simpl.
  - exact Hp.
  - apply IH. rewrite setInput_latched by exact Hp. reflexivity.
Qed.

Example setInput_attack_then_left :
  let p := setInput input_left (setInput input_attack (server_player 1 0)) in
  Input.action (currentInput p) = Some "attack"%string /\
  Input.left (currentInput p) = Some true.
Proof. vm_compute. auto. Qed.

(** C2: once the pending record carries the action "attack", a later
    [setInput] with a record of any other action leaves the stored action at
    "attack"; this holds through any number of further inputs, and the tick
    that consumes the record sees the attack. *)
Theorem setInput_attack_survives (TICK_RATE : Q) (p : Player)
    (input : Input.t) (inputs : list Input.t) :
  Input.action (currentInput p) = Some "attack"%string ->
  Input.action input <> Some "attack"%string ->
  let p1 := setInput input p in
  let pn := fold_left (fun q i => setInput i q) inputs p1 in
  Input.action (currentInput p1) = Some "attack"%string /\
  Input.action (currentInput pn) = Some "attack"%string /\
  isAttacking pn = true /\
  action (processInput TICK_RATE pn) = "attack"%string.
Proof.
  intros Hp _. cbv zeta.
  assert (H1 : Input.action (currentInput (setInput input p))
               = Some "attack"%string).
  { rewrite setInput_latched by exact Hp. reflexivity. }
  pose proof (setInput_many_latched inputs _ H1) as Hn.
  repeat split; try assumption.
  - unfold isAttacking. apply bool_decide_eq_true_2. exact Hn.
  - unfold processInput; simpl. rewrite Hn. reflexivity.
Qed.

Lemma setInput_attack_survives_witness :
  let p := setInput input_attack (server_player 1 0) in
  let p1 := setInput input_left p in
  let pn := fold_left (fun q i => setInput i q) [input_up_left; input_left] p1 in
  Input.action (currentInput p1) = Some "attack"%string /\
  Input.action (currentInput pn) = Some "attack"%string /\
  isAttacking pn = true /\
  action (processInput 60 pn) = "attack"%string.
Proof.
  apply (setInput_attack_survives 60 (setInput input_attack (server_player 1 0))
           input_left [input_up_left; input_left]).
  - vm_compute; reflexivity.
  - vm_compute; discriminate.
Defined.

(** ** The per-tick step *)

Local Open Scope Q_scope.

Lemma clamp_axis_bounds (hi v : Q) :
  0 <= hi -> 0 <= Qmax 0 (Qmin hi v) <= hi.
Proof.
  intros Hhi. split.
  - apply Q.le_max_l.
  - apply Q.max_lub; [exact Hhi | apply Q.le_min_l].
Qed.

Lemma clamp_axis_inside (hi v : Q) :
  0 <= v <= hi -> Qmax 0 (Qmin hi v) == v.
Proof.
  intros [Hlo Hhi].
  rewrite Q.min_r by exact Hhi. rewrite Q.max_r by exact Hlo. reflexivity.
Qed.

(** C3: after [processInput], whatever the starting position and the
    pressed flags, the position lies in [0,800] x [0,600]; the clamp is the
    per-axis min/max applied to the integrated position. *)
Theorem processInput_within_bounds (TICK_RATE : Q) (p : Player) :
  0 < TICK_RATE ->
  let p' := processInput TICK_RATE p in
  (0 <= x (position p') <= 800 /\ 0 <= y (position p') <= 600) /\
  position p' = clamp (integrate TICK_RATE (speed p) (currentInput p) (position p)).
Proof.
  intros _. cbv zeta. split; [split|reflexivity]; simpl.
  - apply clamp_axis_bounds. lra.
  - apply clamp_axis_bounds. lra.
Qed.

Lemma processInput_within_bounds_witness :
  let p := setInput input_up_left (server_player 1 0) in
  let p' := processInput 60 p in
  0 < 60 /\
  (0 <= x (position p') <= 800 /\ 0 <= y (position p') <= 600) /\
  position p' = clamp (integrate 60 (speed p) (currentInput p) (position p)).
Proof.
  split; [reflexivity|].
  apply (processInput_within_bounds 60
           (setInput input_up_left (server_player 1 0))).
  reflexivity.
Defined.

(** C5: each pressed flag displaces the position by speed / TICK_RATE
    (speed x dt with dt = 1 / TICK_RATE) along its axis, left and up
    negatively, right and down positively, and the displacements add up;
    nothing normalises a diagonal.  The clamp then applies to the result,
    and changes nothing when the result is inside the world. *)
Theorem processInput_integrates (TICK_RATE : Q) (p : Player) :
  0 < TICK_RATE ->
  let input := currentInput p in
  let d := speed p / TICK_RATE in
  let q := integrate TICK_RATE (speed p) input (position p) in
  d == speed p * (1 / TICK_RATE) /\
  x q == x (position p) - step_of (Input.left input) d
                        + step_of (Input.right input) d /\
  y q == y (position p) - step_of (Input.up input) d
                        + step_of (Input.down input) d /\
  position (processInput TICK_RATE p) = clamp q /\
  (0 <= x q <= 800 -> x (position (processInput TICK_RATE p)) == x q) /\
  (0 <= y q <= 600 -> y (position (processInput TICK_RATE p)) == y q).
Proof.
  intros Hrate. cbv zeta.
  split; [|split; [|split; [|split; [|split]]]].
  - field. lra.
  - unfold integrate, step_of; simpl.
    destruct (truthy_flag (Input.left (currentInput p))),
             (truthy_flag (Input.right (currentInput p))); ring.
  - unfold integrate, step_of; simpl.
    destruct (truthy_flag (Input.up (currentInput p))),
             (truthy_flag (Input.down (currentInput p))); ring.
  - reflexivity.
  - intros Hin. simpl. apply clamp_axis_inside. exact Hin.
  - intros Hin. simpl. apply clamp_axis_inside. exact Hin.
Qed.

Example processInput_up_left :
  let p' := processInput 60 (setInput input_up_left (server_player 1 0)) in
  x (position p') == 400 - 100 / 60 /\ y (position p') == 300 - 100 / 60 /\
  direction p' = "up"%string /\ action p' = "walk"%string.
Proof. vm_compute. auto. Qed.

Lemma processInput_integrates_witness :
  let p := setInput input_up_left (server_player 1 0) in
  let input := currentInput p in
  let d := speed p / 60 in
  let q := integrate 60 (speed p) input (position p) in
  0 < 60 /\
  d == speed p * (1 / 60) /\
  x q == x (position p) - step_of (Input.left input) d
                        + step_of (Input.right input) d /\
  y q == y (position p) - step_of (Input.up input) d
                        + step_of (Input.down input) d /\
  position (processInput 60 p) = clamp q /\
  (0 <= x q <= 800 -> x (position (processInput 60 p)) == x q) /\
  (0 <= y q <= 600 -> y (position (processInput 60 p)) == y q).
Proof.
  split; [reflexivity|].
  apply (processInput_integrates 60
           (setInput input_up_left (server_player 1 0))).
  reflexivity.
Defined.

(** C4: [processInput] leaves the empty record in [currentInput], so
    [isAttacking()] is false afterwards; a following tick with no new input
    moves nothing and changes neither direction nor action. *)
Theorem processInput_consumes_input (TICK_RATE : Q) (p : Player) :
  let p' := processInput TICK_RATE p in
  let p'' := processInput TICK_RATE p' in
  currentInput p' = Input.empty /\
  isAttacking p' = false /\
  (x (position p'') == x (position p') /\ y (position p'') == y (position p')) /\
  direction p'' = direction p' /\
  action p'' = action p' /\
  currentInput p'' = Input.empty.
Proof.
  cbv zeta. repeat split; try reflexivity.
  - simpl. apply clamp_axis_inside, clamp_axis_bounds. lra.
  - simpl. apply clamp_axis_inside, clamp_axis_bounds. lra.
Qed.

Example processInput_attack_once :
  let p := setInput input_left (setInput input_attack (server_player 1 0)) in
  isAttacking p = true /\
  isAttacking (processInput 60 p) = false /\
  action (processInput 60 p) = "attack"%string.
Proof. vm_compute. auto. Qed.

(** C10: [processInput] writes [position], [direction], [action] and
    [currentInput] only; [playerId], [level], [exp], [health], [socketId],
    [isAlive] and [speed] keep their values. *)
Theorem processInput_frame (TICK_RATE : Q) (p : Player) :
  let p' := processInput TICK_RATE p in
  playerId p' = playerId p /\
  level p' = level p /\
  exp p' = exp p /\
  health p' = health p /\
  socketId p' = socketId p /\
  isAlive p' = isAlive p /\
  speed p' = speed p.
Proof. cbv zeta. repeat split. Qed.

End BackendProperties.

(* ================================================================== *)
(** * Properties of the client                                         *)
(* ================================================================== *)

(** ** Interpolation on one axis *)
Section OneAxis.
Local Open Scope Q_scope.
Variable target : Q.

Lemma toward_remaining (v : Q) :
  target - toward target v == 0.9 * (target - v).
Proof. unfold toward, Frontend.Linear. lra. Qed.

Lemma toward_no_overshoot (v : Q) :
  (0 <= target - v -> 0 <= target - toward target v) /\
  (target - v <= 0 -> target - toward target v <= 0).
Proof. rewrite toward_remaining. split; intros H; lra. Qed.

Lemma toward_abs (v : Q) :
  Qabs (target - toward target v) == 0.9 * Qabs (target - v).
Proof. rewrite toward_remaining, Qabs_Qmult. reflexivity. Qed.

Lemma toward_closer (v : Q) :
  Qabs (target - toward target v) <= Qabs (target - v).
Proof. rewrite toward_abs. pose proof (Qabs_nonneg (target - v)). lra. Qed.

Lemma frames_no_overshoot (n : nat) (v : Q) :
  (0 <= target - v -> 0 <= target - Nat.iter n (toward target) v) /\
  (target - v <= 0 -> target - Nat.iter n (toward target) v <= 0).
Proof.
  induction n as [|n [IHpos IHneg]]; simpl.
  - split; auto.
  - split; intros H.
    + apply toward_no_overshoot, IHpos, H.
    + apply toward_no_overshoot, IHneg, H.
Qed.

(** The remaining distance after [n] frames, weighted by [n + 9], never
    exceeds nine times the initial distance. *)
Lemma frames_decay (n : nat) (v : Q) :
  Qabs (target - Nat.iter n (toward target) v) * (inject_Z (Z.of_nat n) + 9)
  <= 9 * Qabs (target - v).
Proof.
  induction n as [|n IH].
  - change (Nat.iter 0 (toward target) v) with v.
    change (inject_Z (Z.of_nat 0)) with 0.
    generalize (Qabs (target - v)). intros a. lra.
  - change (Nat.iter (S n) (toward target) v)
      with (toward target (Nat.iter n (toward target) v)).
    rewrite toward_abs.
    rewrite Nat2Z.inj_succ. unfold Z.succ. rewrite inject_Z_plus.
    set (a := Qabs (target - Nat.iter n (toward target) v)) in *.
    set (m := inject_Z (Z.of_nat n)) in *.
    assert (Ha : 0 <= a) by apply Qabs_nonneg.
    assert (Hm : 0 <= m).
    { unfold m. change 0 with (inject_Z 0). rewrite <- Zle_Qle. lia. }
    change (inject_Z 1) with 1.
    nra.
Qed.

Lemma frames_within_eps (eps : Q) (n : nat) (v : Q) :
  0 < eps ->
  (frames_within (target - v) eps <= n)%nat ->
  Qabs (target - Nat.iter n (toward target) v) < eps.
Proof.
  intros Heps Hn.
  pose proof (frames_decay n v) as Hdecay.
  set (a := Qabs (target - Nat.iter n (toward target) v)) in *.
  set (d := Qabs (target - v)) in *.
  assert (Ha : 0 <= a) by apply Qabs_nonneg.
  assert (Hd : 0 <= d) by apply Qabs_nonneg.
  assert (Hceil : 9 * d / eps <= inject_Z (Z.of_nat n)).
  { eapply Qle_trans; [apply Qle_ceiling|].
    rewrite <- Zle_Qle. unfold frames_within in Hn. fold d in Hn. lia. }
  set (m := inject_Z (Z.of_nat n)) in *.
  assert (Hmul : 9 * d <= m * eps).
  { assert (Hdiv : 9 * d == 9 * d / eps * eps) by (field; lra).
    rewrite Hdiv. apply Qmult_le_compat_r; [exact Hceil | lra]. }
  assert (Hm : 0 <= m).
  { unfold m. change 0 with (inject_Z 0). rewrite <- Zle_Qle. lia. }
  assert (a * (m + 9) < eps * (m + 9)) by nra.
  nra.
Qed.
End OneAxis.

(** ** The interpolated enemies *)
Section Interpolation.
Import Frontend.
Local Open Scope Q_scope.

Lemma interpolate_frames_target (n : nat) (e : Enemy.t) :
  Enemy.targetPosition (Nat.iter n Enemy.interpolate e) = Enemy.targetPosition e.
Proof. induction n as [|n IH]; simpl; [reflexivity | exact IH]. Qed.

Lemma interpolate_frames_sprite (n : nat) (e : Enemy.t) :
  let shown := Enemy.sprite (Nat.iter n Enemy.interpolate e) in
  x shown = Nat.iter n (toward (x (Enemy.targetPosition e))) (x (Enemy.sprite e)) /\
  y shown = Nat.iter n (toward (y (Enemy.targetPosition e))) (y (Enemy.sprite e)).
Proof.
  induction n as [|n [IHx IHy]]; simpl; [split; reflexivity|].
  simpl in IHx, IHy. rewrite IHx, IHy, interpolate_frames_target.
  split; reflexivity.
Qed.

Lemma interpolate_frames_healthBar (n : nat) (e : Enemy.t) :
  let e' := Nat.iter (S n) Enemy.interpolate e in
  rect_x (Enemy.healthBar e') = x (Enemy.sprite e') /\
  rect_y (Enemy.healthBar e') = y (Enemy.sprite e') - 30.
Proof. simpl. split; reflexivity. Qed.

(** The frames of [Enemy.interpolate]: the target stays, the sign of
    target - x is kept, |target - x| does not grow, and the distance is below
    eps from frame [frames_within (target - x0) eps] on; the same on the y
    axis. *)
Lemma interpolate_converges (e : Enemy.t) (eps : Q) :
  0 < eps ->
  let target := Enemy.targetPosition e in
  let shown n := Enemy.sprite (Nat.iter n Enemy.interpolate e) in
  let dx n := x target - x (shown n) in
  let dy n := y target - y (shown n) in
  (forall n, Enemy.targetPosition (Nat.iter n Enemy.interpolate e) = target) /\
  (forall n, (0 <= dx 0%nat -> 0 <= dx n) /\ (dx 0%nat <= 0 -> dx n <= 0) /\
             Qabs (dx (S n)) <= Qabs (dx n)) /\
  (forall n, (0 <= dy 0%nat -> 0 <= dy n) /\ (dy 0%nat <= 0 -> dy n <= 0) /\
             Qabs (dy (S n)) <= Qabs (dy n)) /\
  (forall n, (frames_within (dx 0%nat) eps <= n)%nat -> Qabs (dx n) < eps) /\
  (forall n, (frames_within (dy 0%nat) eps <= n)%nat -> Qabs (dy n) < eps).
Proof.
  intros Heps target shown dx dy.
  assert (Hx : forall n, dx n = x target
               - Nat.iter n (toward (x target)) (x (Enemy.sprite e))).
  { intros n. unfold dx, shown.
    destruct (interpolate_frames_sprite n e) as [-> _]. reflexivity. }
  assert (Hy : forall n, dy n = y target
               - Nat.iter n (toward (y target)) (y (Enemy.sprite e))).
  { intros n. unfold dy, shown.
    destruct (interpolate_frames_sprite n e) as [_ ->]. reflexivity. }
  split; [intros n; apply interpolate_frames_target|].
  split; [|split; [|split]].
  - intros n. rewrite !Hx. change (Nat.iter 0 _ ?v) with v.
    split; [|split].
    + apply frames_no_overshoot.
    + apply frames_no_overshoot.
    + apply toward_closer.
  - intros n. rewrite !Hy. change (Nat.iter 0 _ ?v) with v.
    split; [|split].
    + apply frames_no_overshoot.
    + apply frames_no_overshoot.
    + apply toward_closer.
  - intros n. rewrite !Hx. change (Nat.iter 0 _ ?v) with v.
    apply frames_within_eps, Heps.
  - intros n. rewrite !Hy. change (Nat.iter 0 _ ?v) with v.
    apply frames_within_eps, Heps.
Qed.

Example interpolate_two_frames :
  let e2 := Nat.iter 2 Enemy.interpolate far_enemy in
  x (Enemy.sprite e2) == 19 /\ y (Enemy.sprite e2) == 9.5 /\
  rect_x (Enemy.healthBar e2) == 19 /\ rect_y (Enemy.healthBar e2) == 9.5 - 30.
Proof. vm_compute. auto. Qed.

Example frames_within_far_enemy :
  frames_within (100 - 0) 1 = 900%nat /\ frames_within (100 - 0) 200 = 5%nat.
Proof. vm_compute. auto. Qed.

(** The scene's own loop does the same to every entry of [this.enemies]. *)
Lemma interpolateEnemyPositions_frames (n : nat) (s : MainScene.t)
    (id : string) (e : MainScene.EnemyObj.t) :
  MainScene.enemies s !! id = Some e ->
  MainScene.enemies (Nat.iter n MainScene.interpolateEnemyPositions s) !! id
  = Some (Nat.iter n MainScene.interpolateEnemy e).
Proof.
  intros He. induction n as [|n IH]; simpl; [exact He|].
  rewrite lookup_fmap, IH. reflexivity.
Qed.

Lemma interpolateEnemy_frames_target (n : nat) (e : MainScene.EnemyObj.t) :
  MainScene.EnemyObj.targetPosition (Nat.iter n MainScene.interpolateEnemy e)
  = MainScene.EnemyObj.targetPosition e.
Proof. induction n as [|n IH]; simpl; [reflexivity | exact IH]. Qed.

Lemma interpolateEnemy_frames_sprite (n : nat) (e : MainScene.EnemyObj.t) :
  let shown := MainScene.EnemyObj.sprite (Nat.iter n MainScene.interpolateEnemy e) in
  let target := MainScene.EnemyObj.targetPosition e in
  x shown = Nat.iter n (toward (x target)) (x (MainScene.EnemyObj.sprite e)) /\
  y shown = Nat.iter n (toward (y target)) (y (MainScene.EnemyObj.sprite e)).
Proof.
  induction n as [|n [IHx IHy]]; simpl; [split; reflexivity|].
  simpl in IHx, IHy. rewrite IHx, IHy, interpolateEnemy_frames_target.
  split; reflexivity.
Qed.

Lemma interpolateEnemyPositions_converges (s : MainScene.t) (id : string)
    (e : MainScene.EnemyObj.t) (eps : Q) (n : nat) :
  0 < eps ->
  MainScene.enemies s !! id = Some e ->
  let target := MainScene.EnemyObj.targetPosition e in
  let start := MainScene.EnemyObj.sprite e in
  exists e',
    MainScene.enemies (Nat.iter n MainScene.interpolateEnemyPositions s) !! id
    = Some e' /\
    MainScene.EnemyObj.targetPosition e' = target /\
    let shown := MainScene.EnemyObj.sprite e' in
    (0 <= x target - x start -> 0 <= x target - x shown) /\
    (x target - x start <= 0 -> x target - x shown <= 0) /\
    (0 <= y target - y start -> 0 <= y target - y shown) /\
    (y target - y start <= 0 -> y target - y shown <= 0) /\
    ((frames_within (x target - x start) eps <= n)%nat ->
     Qabs (x target - x shown) < eps) /\
    ((frames_within (y target - y start) eps <= n)%nat ->
     Qabs (y target - y shown) < eps).
Proof.
  intros Heps He target start.
  exists (Nat.iter n MainScene.interpolateEnemy e).
  split; [apply interpolateEnemyPositions_frames, He|].
  split; [apply interpolateEnemy_frames_target|].
  cbv zeta. destruct (interpolateEnemy_frames_sprite n e) as [-> ->].
  fold target start.
  repeat split; try apply frames_no_overshoot;
    intros Hn; apply frames_within_eps; assumption.
Qed.

(** The frames of one entry of [this.enemies], as for the [Enemy] entity. *)
Lemma interpolateEnemy_converges (o : MainScene.EnemyObj.t) (eps : Q) :
  0 < eps ->
  let target := MainScene.EnemyObj.targetPosition o in
  let shown n :=
    MainScene.EnemyObj.sprite (Nat.iter n MainScene.interpolateEnemy o) in
  let dx n := x target - x (shown n) in
  let dy n := y target - y (shown n) in
  (forall n, MainScene.EnemyObj.targetPosition
               (Nat.iter n MainScene.interpolateEnemy o) = target) /\
  (forall n, (0 <= dx 0%nat -> 0 <= dx n) /\ (dx 0%nat <= 0 -> dx n <= 0) /\
             Qabs (dx (S n)) <= Qabs (dx n)) /\
  (forall n, (0 <= dy 0%nat -> 0 <= dy n) /\ (dy 0%nat <= 0 -> dy n <= 0) /\
             Qabs (dy (S n)) <= Qabs (dy n)) /\
  (forall n, (frames_within (dx 0%nat) eps <= n)%nat -> Qabs (dx n) < eps) /\
  (forall n, (frames_within (dy 0%nat) eps <= n)%nat -> Qabs (dy n) < eps).
Proof.
  intros Heps target shown dx dy.
  assert (Hx : forall n, dx n = x target
               - Nat.iter n (toward (x target)) (x (MainScene.EnemyObj.sprite o))).
  { intros n. unfold dx, shown.
    destruct (interpolateEnemy_frames_sprite n o) as [-> _]. reflexivity. }
  assert (Hy : forall n, dy n = y target
               - Nat.iter n (toward (y target)) (y (MainScene.EnemyObj.sprite o))).
  { intros n. unfold dy, shown.
    destruct (interpolateEnemy_frames_sprite n o) as [_ ->]. reflexivity. }
  split; [intros n; apply interpolateEnemy_frames_target|].
  split; [|split; [|split]].
  - intros n. rewrite !Hx. change (Nat.iter 0 _ ?v) with v.
    split; [|split].
    + apply frames_no_overshoot.
    + apply frames_no_overshoot.
    + apply toward_closer.
  - intros n. rewrite !Hy. change (Nat.iter 0 _ ?v) with v.
    split; [|split].
    + apply frames_no_overshoot.
    + apply frames_no_overshoot.
    + apply toward_closer.
  - intros n. rewrite !Hx. change (Nat.iter 0 _ ?v) with v.
    apply frames_within_eps, Heps.
  - intros n. rewrite !Hy. change (Nat.iter 0 _ ?v) with v.
    apply frames_within_eps, Heps.
Qed.

(** C6 (amended): with the arithmetic taken as exact, for a fixed target and
    the per-frame update x' = x + 0.1 (target - x), applied by
    [Enemy.interpolate] to an enemy and by [interpolateEnemyPositions] to
    every entry of [this.enemies], the displayed position never overshoots
    the target (the sign of target - x is kept and |target - x| does not
    grow from one frame to the next), and for every eps > 0 the distance is
    below eps from frame [frames_within (target - x0) eps] on; the same on
    the y axis. *)
Theorem interpolation_converges (e : Enemy.t) (s : MainScene.t) (id : string)
    (o : MainScene.EnemyObj.t) (eps : Q) :
  0 < eps ->
  MainScene.enemies s !! id = Some o ->
  (let target := Enemy.targetPosition e in
   let shown n := Enemy.sprite (Nat.iter n Enemy.interpolate e) in
   let dx n := x target - x (shown n) in
   let dy n := y target - y (shown n) in
   (forall n, Enemy.targetPosition (Nat.iter n Enemy.interpolate e) = target) /\
   (forall n, (0 <= dx 0%nat -> 0 <= dx n) /\ (dx 0%nat <= 0 -> dx n <= 0) /\
              Qabs (dx (S n)) <= Qabs (dx n)) /\
   (forall n, (0 <= dy 0%nat -> 0 <= dy n) /\ (dy 0%nat <= 0 -> dy n <= 0) /\
              Qabs (dy (S n)) <= Qabs (dy n)) /\
   (forall n, (frames_within (dx 0%nat) eps <= n)%nat -> Qabs (dx n) < eps) /\
   (forall n, (frames_within (dy 0%nat) eps <= n)%nat -> Qabs (dy n) < eps)) /\
  (let target := MainScene.EnemyObj.targetPosition o in
   let entry n :=
     MainScene.enemies (Nat.iter n MainScene.interpolateEnemyPositions s) !! id in
   let dx n := x target - from_option (fun o' => x (MainScene.EnemyObj.sprite o'))
                                      (x target) (entry n) in
   let dy n := y target - from_option (fun o' => y (MainScene.EnemyObj.sprite o'))
                                      (y target) (entry n) in
   (forall n, exists o', entry n = Some o' /\
                         MainScene.EnemyObj.targetPosition o' = target) /\
   (forall n, (0 <= dx 0%nat -> 0 <= dx n) /\ (dx 0%nat <= 0 -> dx n <= 0) /\
              Qabs (dx (S n)) <= Qabs (dx n)) /\
   (forall n, (0 <= dy 0%nat -> 0 <= dy n) /\ (dy 0%nat <= 0 -> dy n <= 0) /\
              Qabs (dy (S n)) <= Qabs (dy n)) /\
   (forall n, (frames_within (dx 0%nat) eps <= n)%nat -> Qabs (dx n) < eps) /\
   (forall n, (frames_within (dy 0%nat) eps <= n)%nat -> Qabs (dy n) < eps)).
Proof.
  intros Heps Ho. split; [apply interpolate_converges, Heps|].
  cbv zeta.
  assert (Hentry : forall n,
             MainScene.enemies (Nat.iter n MainScene.interpolateEnemyPositions s)
               !! id
             = Some (Nat.iter n MainScene.interpolateEnemy o)).
  { intros n. apply interpolateEnemyPositions_frames, Ho. }
  destruct (interpolateEnemy_converges o eps Heps) as (Ht & Hx & Hy & Hex & Hey).
  split.
  { intros n. rewrite Hentry. eexists. split; [reflexivity | apply Ht]. }
  split; [|split; [|split]].
  - intros n. rewrite !Hentry. simpl from_option. apply Hx.
  - intros n. rewrite !Hentry. simpl from_option. apply Hy.
  - intros n. rewrite !Hentry. simpl from_option. apply Hex.
  - intros n. rewrite !Hentry. simpl from_option. apply Hey.
Qed.

Lemma interpolation_converges_witness :
  0 < 1 /\
  MainScene.enemies far_scene !! "e1" = Some far_entry /\
  (let target := Enemy.targetPosition far_enemy in
   let shown n := Enemy.sprite (Nat.iter n Enemy.interpolate far_enemy) in
   let dx n := x target - x (shown n) in
   let dy n := y target - y (shown n) in
   (forall n, Enemy.targetPosition (Nat.iter n Enemy.interpolate far_enemy)
              = target) /\
   (forall n, (0 <= dx 0%nat -> 0 <= dx n) /\ (dx 0%nat <= 0 -> dx n <= 0) /\
              Qabs (dx (S n)) <= Qabs (dx n)) /\
   (forall n, (0 <= dy 0%nat -> 0 <= dy n) /\ (dy 0%nat <= 0 -> dy n <= 0) /\
              Qabs (dy (S n)) <= Qabs (dy n)) /\
   (forall n, (frames_within (dx 0%nat) 1 <= n)%nat -> Qabs (dx n) < 1) /\
   (forall n, (frames_within (dy 0%nat) 1 <= n)%nat -> Qabs (dy n) < 1)) /\
  (let target := MainScene.EnemyObj.targetPosition far_entry in
   let entry n :=
     MainScene.enemies (Nat.iter n MainScene.interpolateEnemyPositions far_scene)
       !! "e1" in
   let dx n := x target - from_option (fun o' => x (MainScene.EnemyObj.sprite o'))
                                      (x target) (entry n) in
   let dy n := y target - from_option (fun o' => y (MainScene.EnemyObj.sprite o'))
                                      (y target) (entry n) in
   (forall n, exists o', entry n = Some o' /\
                         MainScene.EnemyObj.targetPosition o' = target) /\
   (forall n, (0 <= dx 0%nat -> 0 <= dx n) /\ (dx 0%nat <= 0 -> dx n <= 0) /\
              Qabs (dx (S n)) <= Qabs (dx n)) /\
   (forall n, (0 <= dy 0%nat -> 0 <= dy n) /\ (dy 0%nat <= 0 -> dy n <= 0) /\
              Qabs (dy (S n)) <= Qabs (dy n)) /\
   (forall n, (frames_within (dx 0%nat) 1 <= n)%nat -> Qabs (dx n) < 1) /\
   (forall n, (frames_within (dy 0%nat) 1 <= n)%nat -> Qabs (dy n) < 1)).
Proof.
  split; [reflexivity|]. split; [reflexivity|].
  apply (interpolation_converges far_enemy far_scene "e1" far_entry 1).
  - reflexivity.
  - reflexivity.
Defined.

Example interpolateEnemyPositions_two_frames :
  MainScene.EnemyObj.sprite
    <$> MainScene.enemies
          (Nat.iter 2 MainScene.interpolateEnemyPositions far_scene) !! "e1"
  = Some (mkPosition (toward 100 (toward 100 0)) (toward 50 (toward 50 0))).
Proof. vm_compute. reflexivity. Qed.
End Interpolation.

(** ** The same frames in binary64 *)
Section InterpolationBinary64.
Import PrimFloat.

Lemma toward64_fixed_point (x0 target : float) (n : nat) :
  Binary64.toward target x0 = x0 ->
  Nat.iter n (Binary64.toward target) x0 = x0.
Proof.
  intros Hfix. induction n as [|n IH]; simpl; [reflexivity|].
  rewrite IH. exact Hfix.
Qed.

(** C6 (as stated): in binary64, from 0 towards the target 100 the frames
    reach, at frame 331, a number that the update maps to itself, about
    5.7e-14 short of the target; so no number of frames brings the distance
    below eps = 2^-47. *)
Lemma interpolation_stalls_in_binary64 :
  let frame n := Nat.iter n (Binary64.toward 100) 0%float in
  Binary64.toward 100 (frame 331%nat) = frame 331%nat /\
  ~ (exists N, forall n, (N <= n)%nat ->
                 ltb (abs (100 - frame n)) 0x1p-47 = true).
Proof.
  cbv zeta.
  assert (Hfix : Binary64.toward 100 (Nat.iter 331 (Binary64.toward 100) 0%float)
                 = Nat.iter 331 (Binary64.toward 100) 0%float).
  { vm_compute. reflexivity. }
  split; [exact Hfix|].
  intros [N Hnear].
  specialize (Hnear (N + 331)%nat (Nat.le_add_r N 331)).
  rewrite Nat.iter_add in Hnear.
  rewrite (toward64_fixed_point _ _ N Hfix) in Hnear.
  vm_compute in Hnear. discriminate Hnear.
Qed.

(** The frames do come close: within 2^-30 of the target by frame 400. *)
Example interpolation_near_in_binary64 :
  ltb (abs (100 - Nat.iter 400 (Binary64.toward 100) 0%float)) 0x1p-30 = true.
Proof. vm_compute. reflexivity. Qed.
End InterpolationBinary64.

(** ** The attack animation lock *)
Section Animation.
Import Frontend.

Lemma playAnimation_ignored (action : string) (direction : option string)
    (p : Player.t) :
  Player.isAttacking p = true -> Player.playAnimation action direction p = p.
Proof. intros H. unfold Player.playAnimation. rewrite H. reflexivity. Qed.

Lemma playAnimation_many_ignored (calls : list (string * option string))
    (p : Player.t) :
  Player.isAttacking p = true ->
  fold_left (fun q c => Player.playAnimation c.1 c.2 q) calls p = p.
Proof.
  intros H. induction calls as [|c calls IH]; simpl; [reflexivity|].
  rewrite playAnimation_ignored by exact H. exact IH.
Qed.

(** Starting an attack sets the flag, plays the attack animation of the
    direction and registers the completion handler. *)
Lemma playAnimation_attack_starts (direction : option string) (p : Player.t) :
  Player.isAttacking p = false ->
  let p' := Player.playAnimation "attack" direction p in
  Player.isAttacking p' = true /\
  Player.isMoving p' = Player.isMoving p /\
  playing (Player.sprite p')
  = Some ("attack_" +:+ default (Player.currentDirection p) direction) /\
  onComplete (Player.sprite p') = S (onComplete (Player.sprite p)).
Proof.
  intros H. unfold Player.playAnimation. rewrite H. simpl. auto.
Qed.

Lemma attack_complete_resumes (p : Player.t) :
  let q := Player.attack_complete p in
  Player.isAttacking q = false /\
  Player.isMoving q = Player.isMoving p /\
  playing (Player.sprite q)
  = Some ((if Player.isMoving p then "walk_" else "idle_")
          +:+ Player.currentDirection p) /\
  onComplete (Player.sprite q) = onComplete (Player.sprite p).
Proof.
  unfold Player.attack_complete, Player.playAnimation; simpl.
  destruct (Player.isMoving p); simpl; auto.
Qed.

(** C9: while [isAttacking] is set every [playAnimation] call returns
    without changing anything; when the attack animation completes, the
    handler clears the flag and plays walk if [isMoving] is true and idle
    otherwise, in the current direction. *)
Theorem playAnimation_locked_during_attack (p : Player.t)
    (calls : list (string * option string)) :
  Player.isAttacking p = true ->
  onComplete (Player.sprite p) = 1%nat ->
  let p' := fold_left (fun q c => Player.playAnimation c.1 c.2 q) calls p in
  let q := Player.animationcomplete p' in
  p' = p /\
  Player.isAttacking q = false /\
  playing (Player.sprite q)
  = Some ((if Player.isMoving p then "walk_" else "idle_")
          +:+ Player.currentDirection p) /\
  Player.isMoving q = Player.isMoving p /\
  onComplete (Player.sprite q) = 0%nat.
Proof.
  intros Hatt Hpending. cbv zeta.
  rewrite playAnimation_many_ignored by exact Hatt.
  split; [reflexivity|].
  unfold Player.animationcomplete. rewrite Hpending.
  change (Nat.iter 1 Player.attack_complete ?a) with (Player.attack_complete a).
  match goal with
  | |- context [Player.attack_complete ?a] =>
      destruct (attack_complete_resumes a) as (H1 & H2 & H3 & H4)
  end.
  repeat split; assumption.
Qed.

Lemma playAnimation_locked_during_attack_witness :
  let p := attacking_player in
  let calls := [("idle"%string, None); ("walk"%string, Some "left"%string);
                ("die"%string, None); ("attack"%string, None)] in
  let p' := fold_left (fun q c => Player.playAnimation c.1 c.2 q) calls p in
  let q := Player.animationcomplete p' in
  p' = p /\
  Player.isAttacking q = false /\
  playing (Player.sprite q)
  = Some ((if Player.isMoving p then "walk_" else "idle_")
          +:+ Player.currentDirection p) /\
  Player.isMoving q = Player.isMoving p /\
  onComplete (Player.sprite q) = 0%nat.
Proof.
  apply (playAnimation_locked_during_attack attacking_player
           [("idle"%string, None); ("walk"%string, Some "left"%string);
            ("die"%string, None); ("attack"%string, None)]).
  - reflexivity.
  - reflexivity.
Defined.

Example attacking_player_resumes_walk :
  playing (Player.sprite attacking_player) = Some "attack_right"%string /\
  playing (Player.sprite (Player.animationcomplete attacking_player))
  = Some "walk_right"%string.
Proof. vm_compute. auto. Qed.

(** The pending-handler hypothesis holds of every component the scene can
    hold: it is true after construction and every event keeps it. *)
Lemma handler_pending_new (playerData : PlayerData.t) :
  handler_pending (Player.new playerData).
Proof. reflexivity. Qed.

Lemma handler_pending_playAnimation (action : string)
    (direction : option string) (p : Player.t) :
  handler_pending p -> handler_pending (Player.playAnimation action direction p).
Proof.
  unfold handler_pending, Player.playAnimation. intros H.
  destruct (Player.isAttacking p) eqn:Hatt; [rewrite Hatt; exact H|].
  destruct (decide (action = "idle"%string)) as [->|Hidle];
    [simpl; rewrite Hatt; exact H|].
  destruct (decide (action = "walk"%string)) as [->|Hwalk];
    [simpl; rewrite Hatt; exact H|].
  destruct (decide (action = "attack"%string)) as [->|Hattack];
    [simpl; rewrite H; reflexivity|].
  destruct (decide (action = "die"%string)) as [->|Hdie];
    simpl; rewrite Hatt; exact H.
Qed.

Lemma handler_pending_react (p : Player.t) (ev : PlayerEvent) :
  handler_pending p -> handler_pending (react p ev).
Proof.
  intros H. destruct ev as [pos|e l|d|a|a d|]; simpl.
  - exact H.
  - exact H.
  - unfold handler_pending, Player.updateDirection in *.
    destruct (String.eqb d EmptyString); [exact H|]. simpl.
    case_decide; simpl; exact H.
  - exact H.
  - apply handler_pending_playAnimation, H.
  - unfold handler_pending, Player.animationcomplete in *. rewrite H.
    destruct (Player.isAttacking p) eqn:Hatt.
    + change (Nat.iter 1 Player.attack_complete ?a)
        with (Player.attack_complete a).
      match goal with
      | |- context [Player.attack_complete ?a] =>
          destruct (attack_complete_resumes a) as (H1 & _ & _ & H4)
      end.
      rewrite H1, H4. reflexivity.
    + simpl. rewrite Hatt. reflexivity.
Qed.

Lemma handler_pending_reachable (playerData : PlayerData.t)
    (events : list PlayerEvent) :
  handler_pending (fold_left react events (Player.new playerData)).
Proof.
  generalize (handler_pending_new playerData).
  generalize (Player.new playerData). 
  induction events as [|ev events IH]; intros p Hp; simpl; [exact Hp|].
  apply IH, handler_pending_react, Hp.
Qed.
End Animation.

(** ** Reconciliation against a snapshot *)
Section Reconciliation.
Import Frontend.
Import MainScene.

Lemma get_is_Some_keys {V : Type} (d : Dict V) (k : string) :
  is_Some (get d k) <-> k ∈ keys d.
Proof.
  induction d as [|[k' v] d IH]; simpl.
  - split; [intros [? H]; discriminate H | intros H; inversion H].
  - rewrite elem_of_cons. destruct (decide (k' = k)) as [->|Hne].
    + split; [intros _; left; reflexivity | intros _; eexists; reflexivity].
    + rewrite IH. split; [intros H; right; exact H|].
      intros [H|H]; [congruence | exact H].
Qed.

Lemma get_None_keys {V : Type} (d : Dict V) (k : string) :
  get d k = None <-> k ∉ keys d.
Proof.
  rewrite <- get_is_Some_keys, <- eq_None_not_Some. reflexivity.
Qed.

Lemma own_keys_is_Some {V : Type} (m : gmap string V) (k : string) :
  k ∈ own_keys m <-> is_Some (m !! k).
Proof.
  unfold own_keys. rewrite list_elem_of_fmap. split.
  - intros [[k' v] [-> H]]. apply elem_of_map_to_list in H.
    exists v. exact H.
  - intros [v H]. exists (k, v). split; [reflexivity|].
    apply elem_of_map_to_list. exact H.
Qed.

Variable state : GameState.t.

(** *** The players *)

(** The methods called after [updatePosition] leave the sprite and the
    label where they are. *)
Lemma updatePosition_shown (position : Position) (p : Player.t) :
  shown_at position (Player.updatePosition position p).
Proof. repeat split. Qed.

Lemma updateDirection_shown (position : Position) (d : string) (p : Player.t) :
  shown_at position p -> shown_at position (Player.updateDirection d p).
Proof.
  unfold shown_at, Player.updateDirection.
  destruct (String.eqb d EmptyString); [auto|]. simpl.
  case_decide; simpl; auto.
Qed.

Lemma updateAction_shown (position : Position) (a : string) (p : Player.t) :
  shown_at position p -> shown_at position (Player.updateAction a p).
Proof. unfold shown_at. simpl. auto. Qed.

Lemma playAnimation_shown (position : Position) (a : string)
    (d : option string) (p : Player.t) :
  shown_at position p -> shown_at position (Player.playAnimation a d p).
Proof.
  unfold shown_at, Player.playAnimation. intros H.
  destruct (Player.isAttacking p); [exact H|].
  destruct (decide (a = "idle"%string)) as [->|Hidle]; [simpl; exact H|].
  destruct (decide (a = "walk"%string)) as [->|Hwalk]; [simpl; exact H|].
  destruct (decide (a = "attack"%string)) as [->|Hattack]; [simpl; exact H|].
  destruct (decide (a = "die"%string)) as [->|Hdie]; simpl; exact H.
Qed.

Lemma updateExpBar_shown (position : Position) (e l : Z) (p : Player.t) :
  shown_at position p -> shown_at position (Player.updateExpBar e l p).
Proof. unfold shown_at. simpl. auto. Qed.

Lemma sync_player_frame (s : t) (id : string) :
  let s' := sync_player state s id in
  playerId s' = playerId s /\ enemies s' = enemies s /\
  destroyed s' = destroyed s.
Proof.
  unfold sync_player, createPlayer, createOtherPlayer.
  destruct (get (GameState.players state) id); [|auto].
  destruct (players s !! id); simpl; [auto|].
  case_decide; simpl; [auto|].
  destruct (players s !! _); simpl; auto.
Qed.

(** A component already in [this.players] is only ever touched by the
    iteration for its own key. *)
Lemma sync_player_other (s : t) (id k : string) (p : Player.t) :
  id <> k -> players s !! k = Some p ->
  players (sync_player state s id) !! k = Some p.
Proof.
  intros Hne Hk. unfold sync_player, createPlayer, createOtherPlayer.
  destruct (get (GameState.players state) id) as [serverPlayer|]; [|exact Hk].
  destruct (players s !! id) eqn:Hid; simpl.
  - rewrite lookup_insert_ne by exact Hne. exact Hk.
  - case_decide as Hlocal; simpl.
    + subst id. rewrite lookup_insert_ne by exact Hne. exact Hk.
    + destruct (players s !! PlayerData.playerId serverPlayer) eqn:Hpd;
        simpl; [exact Hk|].
      rewrite lookup_insert_ne by congruence. exact Hk.
Qed.

Lemma sync_player_known (s : t) (id : string) (p : Player.t)
    (serverPlayer : PlayerData.t) :
  players s !! id = Some p ->
  get (GameState.players state) id = Some serverPlayer ->
  exists p', players (sync_player state s id) !! id = Some p' /\
             shown_at (PlayerData.position serverPlayer) p'.
Proof.
  intros Hp Hget. unfold sync_player. rewrite Hget, Hp. simpl.
  eexists. split; [apply lookup_insert_eq|].
  case_decide.
  - apply updateExpBar_shown, playAnimation_shown, updateAction_shown,
      updateDirection_shown, updatePosition_shown.
  - apply playAnimation_shown, updateAction_shown,
      updateDirection_shown, updatePosition_shown.
Qed.

Lemma sync_players_frame (l : list string) (s : t) :
  let s' := fold_left (sync_player state) l s in
  playerId s' = playerId s /\ enemies s' = enemies s /\
  destroyed s' = destroyed s.
Proof.
  revert s. induction l as [|id l IH]; intros s; simpl; [auto|].
  destruct (IH (sync_player state s id)) as (H1 & H2 & H3).
  destruct (sync_player_frame s id) as (H1' & H2' & H3').
  simpl in *. rewrite H1, H2, H3. auto.
Qed.

Lemma sync_players_untouched (l : list string) (s : t) (k : string)
    (p : Player.t) :
  k ∉ l -> players s !! k = Some p ->
  players (fold_left (sync_player state) l s) !! k = Some p.
Proof.
  revert s. induction l as [|id l IH]; intros s Hk Hp; simpl; [exact Hp|].
  apply not_elem_of_cons in Hk as [Hne Hk].
  apply IH; [exact Hk|]. apply sync_player_other; [congruence | exact Hp].
Qed.

Lemma sync_players_known (l : list string) (s : t) (k : string)
    (p : Player.t) (serverPlayer : PlayerData.t) :
  get (GameState.players state) k = Some serverPlayer ->
  players s !! k = Some p ->
  exists p', players (fold_left (sync_player state) l s) !! k = Some p' /\
             (k ∈ l \/ shown_at (PlayerData.position serverPlayer) p ->
              shown_at (PlayerData.position serverPlayer) p').
Proof.
  intros Hget. revert s p.
  induction l as [|id l IH]; intros s p Hp; simpl.
  - exists p. split; [exact Hp|]. intros [H|H]; [inversion H | exact H].
  - destruct (decide (id = k)) as [->|Hne].
    + destruct (sync_player_known s k p serverPlayer Hp Hget) as (p1 & Hp1 & Hs1).
      destruct (IH _ _ Hp1) as (p' & Hp' & Hs').
      exists p'. split; [exact Hp'|]. intros _. apply Hs'. right. exact Hs1.
    + pose proof (sync_player_other s id k p Hne Hp) as Hp1.
      destruct (IH _ _ Hp1) as (p' & Hp' & Hs').
      exists p'. split; [exact Hp'|].
      intros [Hin|Hs]; apply Hs'; [left | right; exact Hs].
      apply elem_of_cons in Hin as [Heq|Hin]; [congruence | exact Hin].
Qed.

Lemma drop_player_frame (s : t) (id : string) :
  let s' := drop_player state s id in
  playerId s' = playerId s /\ enemies s' = enemies s.
Proof.
  unfold drop_player.
  destruct (get (GameState.players state) id), (players s !! id); simpl; auto.
Qed.

Lemma drop_player_log (s : t) (id : string) (d : Destroyed) :
  d ∈ destroyed s -> d ∈ destroyed (drop_player state s id).
Proof.
  unfold drop_player. intros Hd.
  destruct (get (GameState.players state) id), (players s !! id); simpl;
    try exact Hd.
  apply elem_of_app. left. exact Hd.
Qed.

Lemma drop_player_lookup (s : t) (id k : string) :
  players (drop_player state s id) !! k
  = if decide (id = k /\ get (GameState.players state) id = None)
    then None else players s !! k.
Proof.
  unfold drop_player.
  destruct (get (GameState.players state) id) eqn:Hget.
  - rewrite decide_False by (intros [_ H]; discriminate H).
    destruct (players s !! id); reflexivity.
  - destruct (decide (id = k)) as [->|Hne].
    + rewrite decide_True by auto.
      destruct (players s !! k) eqn:Hk; simpl;
        [apply lookup_delete_eq | exact Hk].
    + rewrite decide_False by (intros [H _]; contradiction).
      destruct (players s !! id); simpl; [|reflexivity].
      apply lookup_delete_ne. exact Hne.
Qed.

Lemma drop_players_frame (l : list string) (s : t) :
  let s' := fold_left (drop_player state) l s in
  playerId s' = playerId s /\ enemies s' = enemies s.
Proof.
  revert s. induction l as [|id l IH]; intros s; simpl; [auto|].
  destruct (IH (drop_player state s id)) as (H1 & H2).
  destruct (drop_player_frame s id) as (H1' & H2').
  simpl in *. rewrite H1, H2. auto.
Qed.

Lemma drop_players_log (l : list string) (s : t) (d : Destroyed) :
  d ∈ destroyed s -> d ∈ destroyed (fold_left (drop_player state) l s).
Proof.
  revert s. induction l as [|id l IH]; intros s Hd; simpl; [exact Hd|].
  apply IH, drop_player_log, Hd.
Qed.

Lemma drop_players_lookup (l : list string) (s : t) (k : string) :
  players (fold_left (drop_player state) l s) !! k
  = if decide (k ∈ l /\ get (GameState.players state) k = None)
    then None else players s !! k.
Proof.
  revert s. induction l as [|id l IH]; intros s; cbn [fold_left].
  - rewrite decide_False; [reflexivity|]. intros [H _]. inversion H.
  - rewrite IH, drop_player_lookup.
    destruct (decide (k ∈ l /\ get (GameState.players state) k = None))
      as [[Hin Hnone]|Hno].
    + rewrite decide_True; [reflexivity|].
      split; [right; exact Hin | exact Hnone].
    + destruct (decide (id = k /\ get (GameState.players state) id = None))
        as [[-> Hnone]|Hno'].
      * rewrite decide_True; [reflexivity|]. split; [left | exact Hnone].
      * rewrite decide_False; [reflexivity|]. intros [Hin Hnone].
        apply elem_of_cons in Hin as [->|Hin]; [apply Hno' | apply Hno]; auto.
Qed.

Lemma drop_players_logged (l : list string) (s : t) (k : string)
    (p : Player.t) :
  k ∈ l -> get (GameState.players state) k = None ->
  players s !! k = Some p ->
  DestroyedPlayer k p ∈ destroyed (fold_left (drop_player state) l s).
Proof.
  intros Hin Hnone. revert s.
  induction l as [|id l IH]; intros s Hp; [inversion Hin|]. simpl.
  destruct (decide (id = k)) as [->|Hne].
  - apply drop_players_log. unfold drop_player. rewrite Hnone, Hp. simpl.
    apply elem_of_app. right. apply list_elem_of_singleton. reflexivity.
  - apply elem_of_cons in Hin as [Heq|Hin]; [congruence|].
    apply IH; [exact Hin|].
    rewrite drop_player_lookup, decide_False; [exact Hp|].
    intros [H _]. contradiction.
Qed.

(** *** The enemies *)

Lemma sync_enemy_frame (s : t) (id : string) :
  let s' := sync_enemy state s id in
  playerId s' = playerId s /\ players s' = players s /\
  destroyed s' = destroyed s.
Proof.
  unfold sync_enemy, createEnemy.
  destruct (get (GameState.enemies state) id); [|auto].
  destruct (enemies s !! id); simpl; auto.
Qed.

Lemma sync_enemy_other (s : t) (id k : string) :
  id <> k -> enemies (sync_enemy state s id) !! k = enemies s !! k.
Proof.
  intros Hne. unfold sync_enemy, createEnemy.
  destruct (get (GameState.enemies state) id); [|reflexivity].
  destruct (enemies s !! id); simpl; apply lookup_insert_ne, Hne.
Qed.

Lemma sync_enemy_known (s : t) (id : string) (e : EnemyObj.t)
    (serverEnemy : EnemyData.t) :
  enemies s !! id = Some e ->
  get (GameState.enemies state) id = Some serverEnemy ->
  exists e', enemies (sync_enemy state s id) !! id = Some e' /\
             retargeted (EnemyData.position serverEnemy) e e'.
Proof.
  intros He Hget. unfold sync_enemy. rewrite Hget, He. simpl.
  eexists. split; [apply lookup_insert_eq|].
  unfold retargeted; simpl. repeat split.
  destruct (EnemyData.position serverEnemy); reflexivity.
Qed.

Lemma sync_enemies_frame (l : list string) (s : t) :
  let s' := fold_left (sync_enemy state) l s in
  playerId s' = playerId s /\ players s' = players s /\
  destroyed s' = destroyed s.
Proof.
  revert s. induction l as [|id l IH]; intros s; simpl; [auto|].
  destruct (IH (sync_enemy state s id)) as (H1 & H2 & H3).
  destruct (sync_enemy_frame s id) as (H1' & H2' & H3').
  simpl in *. rewrite H1, H2, H3. auto.
Qed.

(** The third loop reads and writes [this.enemies] only. *)
Lemma sync_enemy_enemies (a b : t) (id : string) :
  enemies a = enemies b ->
  enemies (sync_enemy state a id) = enemies (sync_enemy state b id).
Proof.
  intros Hab. unfold sync_enemy, createEnemy. rewrite Hab.
  destruct (get (GameState.enemies state) id); [|exact Hab].
  destruct (enemies b !! id); simpl; rewrite ?Hab; reflexivity.
Qed.

Lemma sync_enemies_enemies (l : list string) (a b : t) :
  enemies a = enemies b ->
  enemies (fold_left (sync_enemy state) l a)
  = enemies (fold_left (sync_enemy state) l b).
Proof.
  revert a b. induction l as [|id l IH]; intros a b Hab; simpl; [exact Hab|].
  apply IH, sync_enemy_enemies, Hab.
Qed.

Lemma sync_enemies_untouched (l : list string) (s : t) (k : string) :
  k ∉ l ->
  enemies (fold_left (sync_enemy state) l s) !! k = enemies s !! k.
Proof.
  revert s. induction l as [|id l IH]; intros s Hk; simpl; [reflexivity|].
  apply not_elem_of_cons in Hk as [Hne Hk].
  rewrite IH by exact Hk. apply sync_enemy_other. congruence.
Qed.

Lemma sync_enemies_known (l : list string) (s : t) (k : string)
    (e : EnemyObj.t) (serverEnemy : EnemyData.t) :
  get (GameState.enemies state) k = Some serverEnemy ->
  enemies s !! k = Some e ->
  exists e', enemies (fold_left (sync_enemy state) l s) !! k = Some e' /\
             retargeted (EnemyObj.targetPosition e') e e' /\
             (k ∈ l ->
              EnemyObj.targetPosition e' = EnemyData.position serverEnemy).
Proof.
  intros Hget. revert s e.
  induction l as [|id l IH]; intros s e He; simpl.
  - exists e. split; [exact He|]. split; [repeat split|].
    intros H; inversion H.
  - destruct (decide (id = k)) as [->|Hne].
    + destruct (sync_enemy_known s k e serverEnemy He Hget) as (e1 & He1 & Hr1).
      destruct (IH _ _ He1) as (e' & He' & Hr' & Ht').
      exists e'. split; [exact He'|]. split.
      * destruct Hr1 as (A1 & A2 & A3 & _), Hr' as (B1 & B2 & B3 & _).
        repeat split; congruence.
      * intros _. destruct (decide (k ∈ l)) as [Hin|Hnin]; [auto|].
        rewrite sync_enemies_untouched in He' by exact Hnin.
        destruct Hr1 as (_ & _ & _ & A4). congruence.
    + pose proof (sync_enemy_other s id k Hne) as Hk. rewrite He in Hk.
      destruct (IH _ _ Hk) as (e' & He' & Hr' & Ht').
      exists e'. split; [exact He'|]. split; [exact Hr'|].
      intros Hin. apply Ht'.
      apply elem_of_cons in Hin as [Heq|Hin]; [congruence | exact Hin].
Qed.

Lemma drop_enemy_frame (s : t) (id : string) :
  let s' := drop_enemy state s id in
  playerId s' = playerId s /\ players s' = players s.
Proof.
  unfold drop_enemy.
  destruct (get (GameState.enemies state) id), (enemies s !! id); simpl; auto.
Qed.

Lemma drop_enemy_log (s : t) (id : string) (d : Destroyed) :
  d ∈ destroyed s -> d ∈ destroyed (drop_enemy state s id).
Proof.
  unfold drop_enemy. intros Hd.
  destruct (get (GameState.enemies state) id), (enemies s !! id); simpl;
    try exact Hd.
  apply elem_of_app. left. exact Hd.
Qed.

Lemma drop_enemy_lookup (s : t) (id k : string) :
  enemies (drop_enemy state s id) !! k
  = if decide (id = k /\ get (GameState.enemies state) id = None)
    then None else enemies s !! k.
Proof.
  unfold drop_enemy.
  destruct (get (GameState.enemies state) id) eqn:Hget.
  - rewrite decide_False by (intros [_ H]; discriminate H).
    destruct (enemies s !! id); reflexivity.
  - destruct (decide (id = k)) as [->|Hne].
    + rewrite decide_True by auto.
      destruct (enemies s !! k) eqn:Hk; simpl;
        [apply lookup_delete_eq | exact Hk].
    + rewrite decide_False by (intros [H _]; contradiction).
      destruct (enemies s !! id); simpl; [|reflexivity].
      apply lookup_delete_ne. exact Hne.
Qed.

Lemma drop_enemies_frame (l : list string) (s : t) :
  let s' := fold_left (drop_enemy state) l s in
  playerId s' = playerId s /\ players s' = players s.
Proof.
  revert s. induction l as [|id l IH]; intros s; simpl; [auto|].
  destruct (IH (drop_enemy state s id)) as (H1 & H2).
  destruct (drop_enemy_frame s id) as (H1' & H2').
  simpl in *. rewrite H1, H2. auto.
Qed.

Lemma drop_enemies_log (l : list string) (s : t) (d : Destroyed) :
  d ∈ destroyed s -> d ∈ destroyed (fold_left (drop_enemy state) l s).
Proof.
  revert s. induction l as [|id l IH]; intros s Hd; simpl; [exact Hd|].
  apply IH, drop_enemy_log, Hd.
Qed.

Lemma drop_enemies_lookup (l : list string) (s : t) (k : string) :
  enemies (fold_left (drop_enemy state) l s) !! k
  = if decide (k ∈ l /\ get (GameState.enemies state) k = None)
    then None else enemies s !! k.
Proof.
  revert s. induction l as [|id l IH]; intros s; cbn [fold_left].
  - rewrite decide_False; [reflexivity|]. intros [H _]. inversion H.
  - rewrite IH, drop_enemy_lookup.
    destruct (decide (k ∈ l /\ get (GameState.enemies state) k = None))
      as [[Hin Hnone]|Hno].
    + rewrite decide_True; [reflexivity|].
      split; [right; exact Hin | exact Hnone].
    + destruct (decide (id = k /\ get (GameState.enemies state) id = None))
        as [[-> Hnone]|Hno'].
      * rewrite decide_True; [reflexivity|]. split; [left | exact Hnone].
      * rewrite decide_False; [reflexivity|]. intros [Hin Hnone].
        apply elem_of_cons in Hin as [->|Hin]; [apply Hno' | apply Hno]; auto.
Qed.

Lemma drop_enemies_logged (l : list string) (s : t) (k : string)
    (e : EnemyObj.t) :
  k ∈ l -> get (GameState.enemies state) k = None ->
  enemies s !! k = Some e ->
  DestroyedEnemy k e ∈ destroyed (fold_left (drop_enemy state) l s).
Proof.
  intros Hin Hnone. revert s.
  induction l as [|id l IH]; intros s He; [inversion Hin|]. simpl.
  destruct (decide (id = k)) as [->|Hne].
  - apply drop_enemies_log. unfold drop_enemy. rewrite Hnone, He. simpl.
    apply elem_of_app. right. apply list_elem_of_singleton. reflexivity.
  - apply elem_of_cons in Hin as [Heq|Hin]; [congruence|].
    apply IH; [exact Hin|].
    rewrite drop_enemy_lookup, decide_False; [exact He|].
    intros [H _]. contradiction.
Qed.

(** *** The whole call *)

Lemma updateGameState_players (s : t) :
  let s1 := fold_left (sync_player state) (keys (GameState.players state)) s in
  forall k,
    players (updateGameState state s) !! k
    = if decide (is_Some (players s1 !! k) /\
                 get (GameState.players state) k = None)
      then None else players s1 !! k.
Proof.
  intros s1 k. unfold updateGameState. fold s1.
  set (s2 := fold_left (drop_player state) (own_keys (players s1)) s1).
  set (s3 := fold_left (sync_enemy state) (keys (GameState.enemies state)) s2).
  destruct (drop_enemies_frame (own_keys (enemies s3)) s3) as (_ & ->).
  unfold s3.
  destruct (sync_enemies_frame (keys (GameState.enemies state)) s2) as (_ & -> & _).
  unfold s2. rewrite drop_players_lookup.
  destruct (decide (is_Some (players s1 !! k) /\ _)) as [[Hk Hnone]|Hno].
  - rewrite decide_True; [reflexivity|].
    split; [apply own_keys_is_Some, Hk | exact Hnone].
  - rewrite decide_False; [reflexivity|]. intros [Hk Hnone].
    apply Hno. split; [apply own_keys_is_Some, Hk | exact Hnone].
Qed.

Lemma updateGameState_enemies (s : t) :
  let s3 := fold_left (sync_enemy state) (keys (GameState.enemies state)) s in
  forall k,
    enemies (updateGameState state s) !! k
    = if decide (is_Some (enemies s3 !! k) /\
                 get (GameState.enemies state) k = None)
      then None else enemies s3 !! k.
Proof.
  intros s3 k. unfold updateGameState.
  set (s1 := fold_left (sync_player state) (keys (GameState.players state)) s).
  set (s2 := fold_left (drop_player state) (own_keys (players s1)) s1).
  set (s3' := fold_left (sync_enemy state) (keys (GameState.enemies state)) s2).
  assert (Hsame : forall j, enemies s3' !! j = enemies s3 !! j).
  { intros j. unfold s3', s3.
    assert (He : enemies s2 = enemies s).
    { unfold s2.
      destruct (drop_players_frame (own_keys (players s1)) s1) as (_ & ->).
      unfold s1.
      destruct (sync_players_frame (keys (GameState.players state)) s)
        as (_ & -> & _). reflexivity. }
    rewrite (sync_enemies_enemies _ s2 s He). reflexivity. }
  rewrite drop_enemies_lookup, Hsame.
  destruct (decide (is_Some (enemies s3 !! k) /\ _)) as [[Hk Hnone]|Hno].
  - rewrite decide_True; [reflexivity|].
    split; [apply own_keys_is_Some; rewrite Hsame; exact Hk | exact Hnone].
  - rewrite decide_False; [reflexivity|]. intros [Hk Hnone].
    apply Hno. split; [|exact Hnone].
    apply own_keys_is_Some in Hk. rewrite Hsame in Hk. exact Hk.
Qed.

(** C7: after [updateGameState(state)] the ids in [this.players] are among
    the ids of [state.players] and those in [this.enemies] among the ids of
    [state.enemies]; an entry present before the call whose id the
    snapshot lacks has had [destroy()] called on it and is deleted when the
    call returns. *)
Theorem updateGameState_tracks_snapshot (s : t) :
  let s' := updateGameState state s in
  dom (players s') ⊆ list_to_set (keys (GameState.players state)) /\
  dom (enemies s') ⊆ list_to_set (keys (GameState.enemies state)) /\
  (forall id p,
      players s !! id = Some p ->
      get (GameState.players state) id = None ->
      players s' !! id = None /\ DestroyedPlayer id p ∈ destroyed s') /\
  (forall id e,
      enemies s !! id = Some e ->
      get (GameState.enemies state) id = None ->
      enemies s' !! id = None /\ DestroyedEnemy id e ∈ destroyed s').
Proof.
  cbv zeta. split; [|split; [|split]].
  - intros k Hk. apply elem_of_dom in Hk.
    rewrite updateGameState_players in Hk.
    apply elem_of_list_to_set, get_is_Some_keys.
    destruct (decide _) as [|Hno] in Hk; [destruct Hk; discriminate|].
    destruct (get (GameState.players state) k) eqn:Hget; [eauto|].
    exfalso. apply Hno. auto.
  - intros k Hk. apply elem_of_dom in Hk.
    rewrite updateGameState_enemies in Hk.
    apply elem_of_list_to_set, get_is_Some_keys.
    destruct (decide _) as [|Hno] in Hk; [destruct Hk; discriminate|].
    destruct (get (GameState.enemies state) k) eqn:Hget; [eauto|].
    exfalso. apply Hno. auto.
  - intros id p Hp Hnone.
    assert (Hp1 : players (fold_left (sync_player state)
                             (keys (GameState.players state)) s) !! id = Some p).
    { apply sync_players_untouched; [|exact Hp].
      apply get_None_keys, Hnone. }
    split.
    + rewrite updateGameState_players, decide_True; [reflexivity|].
      split; [rewrite Hp1; eauto | exact Hnone].
    + unfold updateGameState.
      apply drop_enemies_log.
      match goal with
      | |- _ ∈ destroyed (fold_left (sync_enemy state) ?l ?a) =>
          destruct (sync_enemies_frame l a) as (_ & _ & ->)
      end.
      apply drop_players_logged; [|exact Hnone|exact Hp1].
      apply own_keys_is_Some. rewrite Hp1. eauto.
  - intros id e He Hnone.
    unfold updateGameState.
    set (s1 := fold_left (sync_player state) (keys (GameState.players state)) s).
    set (s2 := fold_left (drop_player state) (own_keys (players s1)) s1).
    set (s3 := fold_left (sync_enemy state) (keys (GameState.enemies state)) s2).
    assert (He3 : enemies s3 !! id = Some e).
    { unfold s3. rewrite sync_enemies_untouched by (apply get_None_keys, Hnone).
      unfold s2.
      destruct (drop_players_frame (own_keys (players s1)) s1) as (_ & ->).
      unfold s1.
      destruct (sync_players_frame (keys (GameState.players state)) s)
        as (_ & -> & _). exact He. }
    assert (Hin : id ∈ own_keys (enemies s3)).
    { apply own_keys_is_Some. rewrite He3. eauto. }
    split.
    + rewrite drop_enemies_lookup, decide_True; auto.
    + apply drop_enemies_logged; assumption.
Qed.

(** C8: a player known to the scene and present in the snapshot is drawn,
    when [updateGameState] returns, exactly at the authoritative position,
    whether it is the local player or not; a known enemy present in the
    snapshot keeps its sprite and health bar where they were and has the
    authoritative position as its [targetPosition]; the sprite of an enemy
    moves in [interpolateEnemyPositions], one interpolation step per
    frame. *)
Theorem updateGameState_positions (s : t) :
  let s' := updateGameState state s in
  (forall id p serverPlayer,
      players s !! id = Some p ->
      get (GameState.players state) id = Some serverPlayer ->
      exists p', players s' !! id = Some p' /\
                 shown_at (PlayerData.position serverPlayer) p') /\
  (forall id e serverEnemy,
      enemies s !! id = Some e ->
      get (GameState.enemies state) id = Some serverEnemy ->
      exists e', enemies s' !! id = Some e' /\
                 retargeted (EnemyData.position serverEnemy) e e') /\
  (forall id e,
      enemies s !! id = Some e ->
      exists e', enemies (interpolateEnemyPositions s) !! id = Some e' /\
                 EnemyObj.targetPosition e' = EnemyObj.targetPosition e /\
                 x (EnemyObj.sprite e')
                 = toward (x (EnemyObj.targetPosition e)) (x (EnemyObj.sprite e)) /\
                 y (EnemyObj.sprite e')
                 = toward (y (EnemyObj.targetPosition e)) (y (EnemyObj.sprite e))).
Proof.
  cbv zeta. split; [|split].
  - intros id p serverPlayer Hp Hget.
    destruct (sync_players_known (keys (GameState.players state)) s id p
                serverPlayer Hget Hp) as (p' & Hp' & Hshown).
    exists p'. split.
    + rewrite updateGameState_players, decide_False; [exact Hp'|].
      intros [_ Hnone]. congruence.
    + apply Hshown. left. apply get_is_Some_keys. rewrite Hget. eauto.
  - intros id e serverEnemy He Hget.
    destruct (sync_enemies_known (keys (GameState.enemies state)) s id e
                serverEnemy Hget He) as (e' & He' & Hr & Ht).
    exists e'. split.
    + rewrite updateGameState_enemies, decide_False; [exact He'|].
      intros [_ Hnone]. congruence.
    + destruct Hr as (A1 & A2 & A3 & _). repeat split; try assumption.
      apply Ht, get_is_Some_keys. rewrite Hget. eauto.
  - intros id e He. eexists. split.
    + unfold interpolateEnemyPositions; simpl.
      rewrite lookup_fmap, He. reflexivity.
    + repeat split.
Qed.
End Reconciliation.

(** ** Two snapshots in a row *)
Section TwoSnapshots.
Import Frontend.
Import MainScene.

Example joined_scene_entries :
  dom (players joined_scene) = {["me"; "other"]} /\
  dom (enemies joined_scene) = {["e1"; "e2"]} /\
  destroyed joined_scene = [].
Proof. vm_compute. auto. Qed.

Example second_snapshot_players :
  let s := updateGameState second_snapshot joined_scene in
  (Player.sprite <$> players s !! "me")
  = Some (mkSprite 105 100 true (Some "walk_left"%string) 0) /\
  players s !! "other" = None /\
  enemies s !! "e2" = None /\
  length (destroyed s) = 2%nat.
Proof. vm_compute. auto. Qed.

Example second_snapshot_enemy :
  let s := updateGameState second_snapshot joined_scene in
  (EnemyObj.sprite <$> enemies s !! "e1") = Some (mkPosition 10 10) /\
  (EnemyObj.targetPosition <$> enemies s !! "e1") = Some (mkPosition 20 30) /\
  (EnemyObj.sprite <$> enemies (interpolateEnemyPositions s) !! "e1")
  = Some (mkPosition (Linear 10 20 0.1) (Linear 10 30 0.1)).
Proof. vm_compute. auto. Qed.
End TwoSnapshots.

(* ================================================================== *)
(** * Further properties of the backend player                         *)
(* ================================================================== *)
Section BackendMore.
Import Backend.

(** ** The input buffer holds the latest record *)

Lemma setInput_flags (input : Input.t) (p : Player) :
  let stored := currentInput (setInput input p) in
  Input.left stored = Input.left input /\
  Input.right stored = Input.right input /\
  Input.up stored = Input.up input /\
  Input.down stored = Input.down input /\
  Input.direction stored = Input.direction input /\
  Input.action stored
  = if is_attack (currentInput p) then Some "attack"%string
    else Input.action input.
Proof.
  unfold setInput, is_attack. cbv zeta.
  destruct (decide (Input.action (currentInput p) = Some "attack"%string)) as [H|H].
  - rewrite bool_decide_eq_true_2 by exact H. repeat split.
  - rewrite bool_decide_eq_false_2 by exact H. repeat split.
Qed.

Lemma setInput_is_attack (input : Input.t) (p : Player) :
  is_attack (currentInput (setInput input p))
  = is_attack (currentInput p) || is_attack input.
Proof.
  destruct (setInput_flags input p) as (_ & _ & _ & _ & _ & Ha).
  unfold is_attack at 1. rewrite Ha.
  destruct (is_attack (currentInput p)) eqn:Hp; simpl; reflexivity.
Qed.

Lemma setInput_many_is_attack (inputs : list Input.t) (p : Player) :
  is_attack (currentInput (fold_left (fun q i => setInput i q) inputs p))
  = is_attack (currentInput p) || existsb is_attack inputs.
Proof.
  revert p. induction inputs as [|i inputs IH]; intros p; simpl.
  - rewrite orb_false_r. reflexivity.
  - rewrite IH, setInput_is_attack, orb_assoc. reflexivity.
Qed.

(** Between two ticks only the last record counts: after any run of
    [setInput] calls the stored flags and direction are those of the last
    record, and the stored action is "attack" if an attack was pending or
    came with an earlier record of the run, and the last record's action
    otherwise. *)
Theorem setInput_last_record_wins (p : Player) (earlier : list Input.t)
    (last : Input.t) :
  let stored :=
    currentInput (fold_left (fun q i => setInput i q) (earlier ++ [last]) p) in
  Input.left stored = Input.left last /\
  Input.right stored = Input.right last /\
  Input.up stored = Input.up last /\
  Input.down stored = Input.down last /\
  Input.direction stored = Input.direction last /\
  Input.action stored
  = if is_attack (currentInput p) || existsb is_attack earlier
    then Some "attack"%string else Input.action last.
Proof.
  cbv zeta. rewrite fold_left_app. simpl.
  destruct (setInput_flags last
              (fold_left (fun q i => setInput i q) earlier p))
    as (H1 & H2 & H3 & H4 & H5 & H6).
  rewrite setInput_many_is_attack in H6. auto 10.
Qed.

(** ** Experience is never lost *)

Local Open Scope Z_scope.

(** [gainExp] adds exactly [amount] to the experience earned in total, and
    writes nothing but [exp] and [level]. *)
Theorem gainExp_conserves_total (amount : Z) (p : Player) :
  let p' := (gainExp amount p).1 in
  total_exp p' = total_exp p + amount /\
  p' = with_exp_level (exp p') (level p') p.
Proof.
  cbv zeta. unfold gainExp, total_exp.
  destruct (level p * 100 <=? exp p + amount); simpl.
  - split; [ring | reflexivity].
  - split; [ring | reflexivity].
Qed.

(** The level never goes down, and a gain that is not negative leaves the
    experience non-negative. *)
Theorem gainExp_monotone (amount : Z) (p : Player) :
  0 <= exp p -> 0 <= amount ->
  let p' := (gainExp amount p).1 in
  level p <= level p' /\ 0 <= exp p'.
Proof.
  intros He Ha. cbv zeta. unfold gainExp.
  destruct (Z.leb_spec (level p * 100) (exp p + amount)); simpl; lia.
Qed.

Lemma gainExp_monotone_witness :
  let p := server_player 2 150 in
  let p' := (gainExp 80 p).1 in
  0 <= exp p /\ 0 <= 80 /\ level p <= level p' /\ 0 <= exp p'.
Proof.
  split; [vm_compute; discriminate|]. split; [vm_compute; discriminate|].
  apply (gainExp_monotone 80 (server_player 2 150)).
  - vm_compute; discriminate.
  - vm_compute; discriminate.
Defined.

(** ** How far a tick can move a player *)

Local Open Scope Q_scope.

Lemma step_nonneg (TICK_RATE spd : Q) :
  0 < TICK_RATE -> 0 <= spd -> 0 <= spd / TICK_RATE.
Proof.
  intros Hrate Hspd. apply Qle_shift_div_l; [exact Hrate | lra].
Qed.

(** Clamping a value to an interval that holds [v] brings it no further
    from [v]. *)
Lemma clamp_axis_near (hi v w d : Q) :
  0 <= v <= hi -> - d <= w - v <= d ->
  - d <= Qmax 0 (Qmin hi w) - v <= d.
Proof.
  intros [Hlo Hhi] [Hl Hr].
  destruct (Q.min_spec hi w) as [[Hm Em]|[Hm Em]];
    destruct (Q.max_spec 0 (Qmin hi w)) as [[Hn En]|[Hn En]];
    rewrite En; rewrite ?Em in *; lra.
Qed.

Lemma integrate_axis (TICK_RATE spd : Q) (input : Input.t) (pos : Position) :
  let d := spd / TICK_RATE in
  let q := integrate TICK_RATE spd input pos in
  x q == x pos - step_of (Input.left input) d + step_of (Input.right input) d /\
  y q == y pos - step_of (Input.up input) d + step_of (Input.down input) d.
Proof.
  cbv zeta. unfold integrate, step_of; simpl.
  destruct (truthy_flag (Input.left input)), (truthy_flag (Input.right input)),
           (truthy_flag (Input.up input)), (truthy_flag (Input.down input));
    split; ring.
Qed.

Lemma processInput_position (TICK_RATE : Q) (p : Player) :
  let q := integrate TICK_RATE (speed p) (currentInput p) (position p) in
  x (position (processInput TICK_RATE p)) = Qmax 0 (Qmin 800 (x q)) /\
  y (position (processInput TICK_RATE p)) = Qmax 0 (Qmin 600 (y q)).
Proof. split; reflexivity. Qed.

(** From a position inside the world and with a speed that is not negative,
    one tick moves the player by at most speed / TICK_RATE along each
    axis. *)
Theorem processInput_step_bound (TICK_RATE : Q) (p : Player) :
  0 < TICK_RATE -> 0 <= speed p -> in_world (position p) ->
  let p' := processInput TICK_RATE p in
  Qabs (x (position p') - x (position p)) <= speed p / TICK_RATE /\
  Qabs (y (position p') - y (position p)) <= speed p / TICK_RATE.
Proof.
  intros Hrate Hspd [Hx Hy]. cbv zeta.
  pose proof (step_nonneg _ _ Hrate Hspd) as Hd.
  destruct (integrate_axis TICK_RATE (speed p) (currentInput p) (position p))
    as [Ex Ey].
  destruct (processInput_position TICK_RATE p) as [-> ->].
  split; apply Qabs_Qle_condition.
  - apply clamp_axis_near; [exact Hx|]. rewrite Ex. unfold step_of.
    destruct (truthy_flag (Input.left (currentInput p))),
             (truthy_flag (Input.right (currentInput p))); lra.
  - apply clamp_axis_near; [exact Hy|]. rewrite Ey. unfold step_of.
    destruct (truthy_flag (Input.up (currentInput p))),
             (truthy_flag (Input.down (currentInput p))); lra.
Qed.

Lemma processInput_step_bound_witness :
  let p := setInput input_up_left (server_player 1 0) in
  let p' := processInput 60 p in
  0 < 60 /\ 0 <= speed p /\ in_world (position p) /\
  Qabs (x (position p') - x (position p)) <= speed p / 60 /\
  Qabs (y (position p') - y (position p)) <= speed p / 60.
Proof.
  split; [reflexivity|]. split; [vm_compute; discriminate|].
  split; [vm_compute; intuition discriminate|].
  apply (processInput_step_bound 60 (setInput input_up_left (server_player 1 0))).
  - reflexivity.
  - vm_compute; discriminate.
  - vm_compute; intuition discriminate.
Defined.

(** Inside the world, a coordinate changes only if exactly one of its two
    flags is pressed: with both or neither the player stays where it is on
    that axis. *)
Theorem processInput_opposite_flags_cancel (TICK_RATE : Q) (p : Player) :
  in_world (position p) ->
  let input := currentInput p in
  let p' := processInput TICK_RATE p in
  (truthy_flag (Input.left input) = truthy_flag (Input.right input) ->
   x (position p') == x (position p)) /\
  (truthy_flag (Input.up input) = truthy_flag (Input.down input) ->
   y (position p') == y (position p)).
Proof.
  intros [Hx Hy]. cbv zeta.
  destruct (integrate_axis TICK_RATE (speed p) (currentInput p) (position p))
    as [Ex Ey].
  unfold step_of in Ex, Ey.
  destruct (processInput_position TICK_RATE p) as [-> ->].
  split; intros Hsame; rewrite Hsame in *.
  - assert (E : x (integrate TICK_RATE (speed p) (currentInput p) (position p))
                == x (position p)).
    { rewrite Ex.
      destruct (truthy_flag (Input.right (currentInput p))); ring. }
    rewrite clamp_axis_inside; [exact E | rewrite E; exact Hx].
  - assert (E : y (integrate TICK_RATE (speed p) (currentInput p) (position p))
                == y (position p)).
    { rewrite Ey.
      destruct (truthy_flag (Input.down (currentInput p))); ring. }
    rewrite clamp_axis_inside; [exact E | rewrite E; exact Hy].
Qed.

Lemma processInput_opposite_flags_cancel_witness :
  let p := setInput (Input.mk (Some true) (Some true) None (Some false) None None)
                    (server_player 1 0) in
  let input := currentInput p in
  let p' := processInput 60 p in
  in_world (position p) /\
  (truthy_flag (Input.left input) = truthy_flag (Input.right input) ->
   x (position p') == x (position p)) /\
  (truthy_flag (Input.up input) = truthy_flag (Input.down input) ->
   y (position p') == y (position p)).
Proof.
  split; [vm_compute; intuition discriminate|].
  apply (processInput_opposite_flags_cancel 60
           (setInput (Input.mk (Some true) (Some true) None (Some false) None None)
                     (server_player 1 0))).
  vm_compute; intuition discriminate.
Defined.

(** A player on an edge of the world who presses towards the outside stays
    on that edge. *)
Theorem processInput_stops_at_walls (TICK_RATE : Q) (p : Player) :
  0 < TICK_RATE -> 0 <= speed p ->
  let input := currentInput p in
  let p' := processInput TICK_RATE p in
  (x (position p) == 0 -> truthy_flag (Input.left input) = true ->
   truthy_flag (Input.right input) = false -> x (position p') == 0) /\
  (x (position p) == 800 -> truthy_flag (Input.right input) = true ->
   truthy_flag (Input.left input) = false -> x (position p') == 800) /\
  (y (position p) == 0 -> truthy_flag (Input.up input) = true ->
   truthy_flag (Input.down input) = false -> y (position p') == 0) /\
  (y (position p) == 600 -> truthy_flag (Input.down input) = true ->
   truthy_flag (Input.up input) = false -> y (position p') == 600).
Proof.
  intros Hrate Hspd. cbv zeta.
  pose proof (step_nonneg _ _ Hrate Hspd) as Hd.
  destruct (integrate_axis TICK_RATE (speed p) (currentInput p) (position p))
    as [Ex Ey].
  unfold step_of in Ex, Ey.
  destruct (processInput_position TICK_RATE p) as [-> ->].
  repeat split; intros Hat Hin Hout; rewrite Hin, Hout in *.
  - rewrite Q.max_l; [reflexivity|].
    eapply Qle_trans; [apply Q.le_min_r|]. rewrite Ex. lra.
  - rewrite Q.min_l by (rewrite Ex; lra). rewrite Q.max_r by lra. reflexivity.
  - rewrite Q.max_l; [reflexivity|].
    eapply Qle_trans; [apply Q.le_min_r|]. rewrite Ey. lra.
  - rewrite Q.min_l by (rewrite Ey; lra). rewrite Q.max_r by lra. reflexivity.
Qed.

Lemma processInput_stops_at_walls_witness :
  let p := setInput input_left
             (new_Player (PlayerData.mk "p1" (mkPosition 0 600) 1 0 100 "s1"
                                        "left" "idle")) in
  let input := currentInput p in
  let p' := processInput 60 p in
  0 < 60 /\ 0 <= speed p /\
  (x (position p) == 0 -> truthy_flag (Input.left input) = true ->
   truthy_flag (Input.right input) = false -> x (position p') == 0) /\
  (x (position p) == 800 -> truthy_flag (Input.right input) = true ->
   truthy_flag (Input.left input) = false -> x (position p') == 800) /\
  (y (position p) == 0 -> truthy_flag (Input.up input) = true ->
   truthy_flag (Input.down input) = false -> y (position p') == 0) /\
  (y (position p) == 600 -> truthy_flag (Input.down input) = true ->
   truthy_flag (Input.up input) = false -> y (position p') == 600).
Proof.
  split; [reflexivity|]. split; [vm_compute; discriminate|].
  apply (processInput_stops_at_walls 60
           (setInput input_left
              (new_Player (PlayerData.mk "p1" (mkPosition 0 600) 1 0 100 "s1"
                                         "left" "idle")))).
  - reflexivity.
  - vm_compute; discriminate.
Defined.

Example processInput_left_at_the_wall :
  let p := setInput input_left
             (new_Player (PlayerData.mk "p1" (mkPosition 0 600) 1 0 100 "s1"
                                        "left" "idle")) in
  position (processInput 60 p) = mkPosition 0 600.
Proof. vm_compute. reflexivity. Qed.

End BackendMore.

(* ================================================================== *)
(** * Further properties of the client player                          *)
(* ================================================================== *)
Section PlayerMore.
Import Frontend.

(** ** The experience bar *)

(** For a positive level and an experience between 0 and level x 100, the
    bar is 2 x exp / level wide, between 0 and 200, and its left end (its
    centre minus half its width) stays at 300; the component remembers the
    two numbers. *)
Theorem updateExpBar_geometry (e l : Z) (p : Player.t) :
  (0 < l)%Z -> (0 <= e <= l * 100)%Z ->
  let p' := Player.updateExpBar e l p in
  (Player.expBar_width p' == 2 * inject_Z e / inject_Z l)%Q /\
  (0 <= Player.expBar_width p' <= 200)%Q /\
  (Player.expBar_x p' - Player.expBar_width p' / 2 == 300)%Q /\
  Player.exp p' = e /\ Player.level p' = l /\ Player.levelText p' = l.
Proof.
  intros Hl [He0 He1]. cbv zeta. simpl.
  assert (HL : (0 < inject_Z l)%Q).
  { change 0%Q with (inject_Z 0). rewrite <- Zlt_Qlt. exact Hl. }
  assert (HE0 : (0 <= inject_Z e)%Q).
  { change 0%Q with (inject_Z 0). rewrite <- Zle_Qle. exact He0. }
  assert (HE1 : (inject_Z e <= inject_Z l * 100)%Q).
  { change 100%Q with (inject_Z 100). rewrite <- inject_Z_mult, <- Zle_Qle.
    exact He1. }
  assert (Hw : (inject_Z e / (inject_Z l * 100) * 200
                == 2 * inject_Z e / inject_Z l)%Q) by (field; lra).
  split; [exact Hw|]. split; [|split; [|auto]].
  - rewrite Hw. split.
    + apply Qle_shift_div_l; [exact HL | lra].
    + apply Qle_shift_div_r; [exact HL | lra].
  - field. lra.
Qed.

Lemma updateExpBar_geometry_witness :
  let p' := Player.updateExpBar 50 2 client_player in
  (0 < 2)%Z /\ (0 <= 50 <= 2 * 100)%Z /\
  (Player.expBar_width p' == 2 * inject_Z 50 / inject_Z 2)%Q /\
  (0 <= Player.expBar_width p' <= 200)%Q /\
  (Player.expBar_x p' - Player.expBar_width p' / 2 == 300)%Q /\
  Player.exp p' = 50%Z /\ Player.level p' = 2%Z /\ Player.levelText p' = 2%Z.
Proof.
  split; [reflexivity|]. split; [split; discriminate|].
  apply (updateExpBar_geometry 50 2 client_player).
  - reflexivity.
  - split; discriminate.
Defined.

(** ** Requests that are not animations *)

(** An action other than idle, walk, attack and die changes nothing at
    all, whether or not an attack is playing. *)
Theorem playAnimation_unknown_action (action : string)
    (direction : option string) (p : Player.t) :
  action ∉ actions ->
  Player.playAnimation action direction p = p.
Proof.
  intros Hnot. unfold Player.playAnimation.
  destruct (Player.isAttacking p); [reflexivity|].
  assert (H1 : action <> "idle"%string) by (intros ->; apply Hnot; set_solver).
  assert (H2 : action <> "walk"%string) by (intros ->; apply Hnot; set_solver).
  assert (H3 : action <> "attack"%string) by (intros ->; apply Hnot; set_solver).
  assert (H4 : action <> "die"%string) by (intros ->; apply Hnot; set_solver).
  destruct (decide (action = "idle"%string)); [contradiction|].
  destruct (decide (action = "walk"%string)); [contradiction|].
  destruct (decide (action = "attack"%string)); [contradiction|].
  destruct (decide (action = "die"%string)); [contradiction|].
  reflexivity.
Qed.

Lemma playAnimation_unknown_action_witness :
  ("jump"%string ∉ actions) /\
  Player.playAnimation "jump" (Some "up"%string) client_player = client_player.
Proof.
  assert (H : "jump"%string ∉ actions).
  { unfold actions. intros Hin.
    repeat (apply elem_of_cons in Hin as [Hin|Hin]; [discriminate Hin|]).
    inversion Hin. }
  split; [exact H|].
  apply (playAnimation_unknown_action "jump" (Some "up"%string) client_player H).
Defined.

(** ** What every component keeps, whatever happens to it *)

Lemma mirrored_react (p : Player.t) (ev : PlayerEvent) :
  mirrored_when_left p -> mirrored_when_left (react p ev).
Proof.
  unfold mirrored_when_left. intros H.
  assert (Hplay : forall a d q,
             flipX (Player.sprite q)
             = bool_decide (Player.currentDirection q = "left"%string) ->
             flipX (Player.sprite (Player.playAnimation a d q))
             = bool_decide (Player.currentDirection
                              (Player.playAnimation a d q) = "left"%string)).
  { intros a d q Hq. unfold Player.playAnimation.
    destruct (Player.isAttacking q); [exact Hq|].
    destruct (decide (a = "idle"%string)) as [->|Hidle]; [simpl; exact Hq|].
    destruct (decide (a = "walk"%string)) as [->|Hwalk]; [simpl; exact Hq|].
    destruct (decide (a = "attack"%string)) as [->|Hattack]; [simpl; exact Hq|].
    destruct (decide (a = "die"%string)) as [->|Hdie]; simpl; exact Hq. }
  destruct ev as [pos|e l|d|a|a d|]; simpl.
  - exact H.
  - exact H.
  - unfold Player.updateDirection.
    destruct (String.eqb d EmptyString); [exact H|]. simpl.
    destruct (decide (d = Player.currentDirection p)) as [->|Hne]; simpl.
    + exact H.
    + reflexivity.
  - exact H.
  - apply Hplay, H.
  - unfold Player.animationcomplete.
    generalize (onComplete (Player.sprite p)). intros n.
    induction n as [|n IH]; simpl; [exact H|].
    unfold Player.attack_complete at 1. apply Hplay. simpl. exact IH.
Qed.

(** A component is mirrored exactly when it faces left: true of a new
    component and kept by every method call and every completion event. *)
Theorem player_mirrored_when_left (playerData : PlayerData.t)
    (events : list PlayerEvent) :
  mirrored_when_left (fold_left react events (Player.new playerData)).
Proof.
  assert (H0 : mirrored_when_left (Player.new playerData)) by reflexivity.
  revert H0. generalize (Player.new playerData).
  induction events as [|ev events IH]; intros p Hp; simpl; [exact Hp|].
  apply IH, mirrored_react, Hp.
Qed.

(** ** The lock is always released *)

(** Whatever has happened to a component, once the sprite reports a
    completed animation the flag is clear, no handler is left, and the next
    request is honoured. *)
Theorem animationcomplete_releases (playerData : PlayerData.t)
    (events : list PlayerEvent) (direction : string) :
  let p := fold_left react events (Player.new playerData) in
  let q := Player.animationcomplete p in
  Player.isAttacking q = false /\
  onComplete (Player.sprite q) = 0%nat /\
  (Player.isAttacking p = false -> q = p) /\
  playing (Player.sprite (Player.playAnimation "walk" (Some direction) q))
  = Some ("walk_" +:+ direction).
Proof.
  cbv zeta.
  pose proof (handler_pending_reachable playerData events) as Hpending.
  pose proof (handler_pending_react _ AnimationComplete Hpending) as Hafter.
  set (p := fold_left react events (Player.new playerData)) in *.
  simpl in Hafter. unfold handler_pending in *.
  assert (Hq : Player.isAttacking (Player.animationcomplete p) = false).
  { unfold Player.animationcomplete. rewrite Hpending.
    destruct (Player.isAttacking p) eqn:Hatt.
    - change (Nat.iter 1 Player.attack_complete ?a)
        with (Player.attack_complete a).
      match goal with
      | |- context [Player.attack_complete ?a] =>
          destruct (attack_complete_resumes a) as (H1 & _)
      end.
      exact H1.
    - simpl. exact Hatt. }
  split; [exact Hq|]. split; [rewrite Hafter, Hq; reflexivity|]. split.
  - intros Hatt. unfold Player.animationcomplete.
    rewrite Hpending, Hatt. simpl.
    destruct p as [? [? ? ? ? n] ? ? ? ? ? ? ? ? ? ?]. simpl in *.
    rewrite Hatt in Hpending. subst n. reflexivity.
  - unfold Player.playAnimation. rewrite Hq. simpl. reflexivity.
Qed.

Lemma attacking_playing_react (p : Player.t) (ev : PlayerEvent) :
  (Player.isAttacking p = true ->
   exists d, playing (Player.sprite p) = Some ("attack_" +:+ d)) ->
  Player.isAttacking (react p ev) = true ->
  exists d, playing (Player.sprite (react p ev)) = Some ("attack_" +:+ d).
Proof.
  intros H.
  assert (Hplay : forall a d q,
             (Player.isAttacking q = true ->
              exists d, playing (Player.sprite q) = Some ("attack_" +:+ d)) ->
             Player.isAttacking (Player.playAnimation a d q) = true ->
             exists d', playing (Player.sprite (Player.playAnimation a d q))
                        = Some ("attack_" +:+ d')).
  { intros a d q Hq. unfold Player.playAnimation.
    destruct (Player.isAttacking q) eqn:Hatt; [intros _; apply Hq; reflexivity|].
    destruct (decide (a = "idle"%string)) as [->|Hidle];
      [simpl; rewrite Hatt; discriminate|].
    destruct (decide (a = "walk"%string)) as [->|Hwalk];
      [simpl; rewrite Hatt; discriminate|].
    destruct (decide (a = "attack"%string)) as [->|Hattack];
      [simpl; intros _; eexists; reflexivity|].
    destruct (decide (a = "die"%string)) as [->|Hdie];
      simpl; rewrite Hatt; discriminate. }
  destruct ev as [pos|e l|d|a|a d|]; simpl.
  - exact H.
  - exact H.
  - unfold Player.updateDirection.
    destruct (String.eqb d EmptyString); [exact H|]. simpl.
    destruct (decide (d = Player.currentDirection p)); simpl; exact H.
  - exact H.
  - apply Hplay, H.
  - unfold Player.animationcomplete.
    destruct (onComplete (Player.sprite p)) as [|n]; [simpl; exact H|].
    change (Nat.iter (S n) Player.attack_complete ?a)
      with (Player.attack_complete (Nat.iter n Player.attack_complete a)).
    match goal with
    | |- context [Player.attack_complete ?a] =>
        destruct (attack_complete_resumes a) as (H1 & _)
    end.
    rewrite H1. discriminate.
Qed.

(** While the flag is set the sprite is playing an attack animation. *)
Theorem attacking_plays_attack (playerData : PlayerData.t)
    (events : list PlayerEvent) :
  let p := fold_left react events (Player.new playerData) in
  Player.isAttacking p = true ->
  exists d, playing (Player.sprite p) = Some ("attack_" +:+ d).
Proof.
  cbv zeta.
  assert (H0 : Player.isAttacking (Player.new playerData) = true ->
               exists d, playing (Player.sprite (Player.new playerData))
                         = Some ("attack_" +:+ d)) by discriminate.
  revert H0. generalize (Player.new playerData).
  induction events as [|ev events IH]; intros p Hp; simpl; [exact Hp|].
  apply IH. apply attacking_playing_react, Hp.
Qed.

Lemma attacking_plays_attack_witness :
  let p := fold_left react
             [CallUpdateDirection "up"; CallPlayAnimation "attack" None;
              CallPlayAnimation "idle" None]
             (Player.new (snapshot_entry "me" 100 100)) in
  Player.isAttacking p = true /\
  exists d, playing (Player.sprite p) = Some ("attack_" +:+ d).
Proof.
  split; [reflexivity|].
  apply (attacking_plays_attack (snapshot_entry "me" 100 100)
           [CallUpdateDirection "up"; CallPlayAnimation "attack" None;
            CallPlayAnimation "idle" None]).
  reflexivity.
Defined.

(** ** Every request has its animation *)

Lemma registered_sound (k : string) (cfg : Scene.AnimConfig) :
  List.find (fun c => String.eqb (Scene.key c) k) Scene.createAnimations
  = Some cfg ->
  cfg ∈ Scene.createAnimations /\ Scene.key cfg = k.
Proof.
  intros Hfind. apply find_some in Hfind as [Hin Hkey].
  split; [apply list_elem_of_In, Hin | apply String.eqb_eq, Hkey].
Qed.

(** For each of the four actions and four directions, the key that
    [playAnimation] hands to the sprite is one that [createAnimations]
    registered, and that animation ends (repeat 0) exactly when the action
    is attack or die; the idle and walk animations repeat for ever. *)
Theorem playAnimation_key_registered (action direction : string)
    (p : Player.t) :
  Player.isAttacking p = false ->
  action ∈ actions -> direction ∈ directions ->
  exists cfg,
    cfg ∈ Scene.createAnimations /\
    playing (Player.sprite (Player.playAnimation action (Some direction) p))
    = Some (Scene.key cfg) /\
    Scene.repeat cfg
    = (if bool_decide (action = "attack"%string \/ action = "die"%string)
       then 0 else -1)%Z.
Proof.
  intros Hatt Ha Hd. unfold Player.playAnimation. rewrite Hatt.
  unfold actions in Ha. unfold directions in Hd.
  rewrite !elem_of_cons in Ha. rewrite !elem_of_cons in Hd.
  destruct Ha as [->|[->|[->|[->|Ha]]]]; [..|inversion Ha];
    (destruct Hd as [->|[->|[->|[->|Hd]]]]; [..|inversion Hd]);
    simpl;
    match goal with
    | |- exists cfg, _ /\ Some ?k = _ /\ _ =>
        destruct (registered_sound k _ eq_refl) as [Hin _];
        eexists; split; [exact Hin|]; split; reflexivity
    end.
Qed.

Lemma playAnimation_key_registered_witness :
  Player.isAttacking client_player = false /\
  ("attack"%string ∈ actions) /\ ("left"%string ∈ directions) /\
  exists cfg,
    cfg ∈ Scene.createAnimations /\
    playing (Player.sprite
               (Player.playAnimation "attack" (Some "left"%string) client_player))
    = Some (Scene.key cfg) /\
    Scene.repeat cfg
    = (if bool_decide ("attack"%string = "attack"%string
                       \/ "attack"%string = "die"%string)
       then 0 else -1)%Z.
Proof.
  assert (Ha : "attack"%string ∈ actions).
  { unfold actions. rewrite !elem_of_cons. auto. }
  assert (Hd : "left"%string ∈ directions).
  { unfold directions. rewrite !elem_of_cons. auto. }
  split; [reflexivity|]. split; [exact Ha|]. split; [exact Hd|].
  apply (playAnimation_key_registered "attack" "left" client_player
           eq_refl Ha Hd).
Defined.

End PlayerMore.

(* ================================================================== *)
(** * Further properties of the enemies                                *)
(* ================================================================== *)
Section EnemyMore.
Import Frontend.
Local Open Scope Q_scope.

(** ** The exact distance after n frames *)

Lemma frames_remaining (target : Q) (n : nat) (v : Q) :
  target - Nat.iter n (toward target) v
  == (9 # 10) ^ Z.of_nat n * (target - v).
Proof.
  induction n as [|n IH].
  - change (Nat.iter 0 (toward target) v) with v.
    change ((9 # 10) ^ Z.of_nat 0) with 1. ring.
  - change (Nat.iter (S n) (toward target) v)
      with (toward target (Nat.iter n (toward target) v)).
    rewrite toward_remaining, IH.
    rewrite Nat2Z.inj_succ. unfold Z.succ.
    rewrite Qpower_plus by discriminate.
    change ((9 # 10) ^ 1) with (9 # 10). ring.
Qed.

(** After [n] frames of [interpolate] with the target fixed, what is left
    of the way to the target is exactly (9/10)^n of what it was, on each
    axis; an enemy drawn on its target stays there. *)
Theorem interpolate_remaining (n : nat) (e : Enemy.t) :
  let target := Enemy.targetPosition e in
  let shown := Enemy.sprite (Nat.iter n Enemy.interpolate e) in
  x target - x shown == (9 # 10) ^ Z.of_nat n * (x target - x (Enemy.sprite e)) /\
  y target - y shown == (9 # 10) ^ Z.of_nat n * (y target - y (Enemy.sprite e)) /\
  (x (Enemy.sprite e) == x target -> x shown == x target) /\
  (y (Enemy.sprite e) == y target -> y shown == y target).
Proof.
  cbv zeta. destruct (interpolate_frames_sprite n e) as [-> ->].
  pose proof (frames_remaining (x (Enemy.targetPosition e)) n
                (x (Enemy.sprite e))) as Hx.
  pose proof (frames_remaining (y (Enemy.targetPosition e)) n
                (y (Enemy.sprite e))) as Hy.
  split; [exact Hx|]. split; [exact Hy|]. split; intros Hat.
  - assert (H0 : x (Enemy.targetPosition e) - x (Enemy.sprite e) == 0) by lra.
    rewrite H0, Qmult_0_r in Hx. lra.
  - assert (H0 : y (Enemy.targetPosition e) - y (Enemy.sprite e) == 0) by lra.
    rewrite H0, Qmult_0_r in Hy. lra.
Qed.

(** ** Interpolation never leaves the world *)

Lemma toward_between (lo hi target v : Q) :
  lo <= v <= hi -> lo <= target <= hi -> lo <= toward target v <= hi.
Proof. unfold toward, Linear. intros [? ?] [? ?]. split; lra. Qed.

Lemma frames_between (lo hi target : Q) (n : nat) (v : Q) :
  lo <= v <= hi -> lo <= target <= hi ->
  lo <= Nat.iter n (toward target) v <= hi.
Proof.
  intros Hv Ht. induction n as [|n IH]; simpl; [exact Hv|].
  apply toward_between; assumption.
Qed.

(** If an enemy is drawn inside the world and its target is inside the
    world, every frame of [interpolate] draws it inside the world. *)
Theorem interpolate_stays_in_world (n : nat) (e : Enemy.t) :
  in_world (Enemy.sprite e) -> in_world (Enemy.targetPosition e) ->
  in_world (Enemy.sprite (Nat.iter n Enemy.interpolate e)).
Proof.
  intros [Hsx Hsy] [Htx Hty]. unfold in_world.
  destruct (interpolate_frames_sprite n e) as [-> ->].
  split; apply frames_between; assumption.
Qed.

Lemma interpolate_stays_in_world_witness :
  in_world (Enemy.sprite far_enemy) /\
  in_world (Enemy.targetPosition far_enemy) /\
  in_world (Enemy.sprite (Nat.iter 7 Enemy.interpolate far_enemy)).
Proof.
  assert (Hs : in_world (Enemy.sprite far_enemy))
    by (vm_compute; intuition discriminate).
  assert (Ht : in_world (Enemy.targetPosition far_enemy))
    by (vm_compute; intuition discriminate).
  split; [exact Hs|]. split; [exact Ht|].
  apply (interpolate_stays_in_world 7 far_enemy Hs Ht).
Defined.

(** ** The two interpolation loops agree *)

Lemma interpolate_step_agrees (e : Enemy.t) (o : MainScene.EnemyObj.t) :
  Enemy.sprite e = MainScene.EnemyObj.sprite o ->
  Enemy.targetPosition e = MainScene.EnemyObj.targetPosition o ->
  let e' := Enemy.interpolate e in
  let o' := MainScene.interpolateEnemy o in
  Enemy.sprite e' = MainScene.EnemyObj.sprite o' /\
  Enemy.targetPosition e' = MainScene.EnemyObj.targetPosition o' /\
  rect_x (Enemy.healthBar e') = rect_x (MainScene.EnemyObj.healthBar o') /\
  rect_y (Enemy.healthBar e') = rect_y (MainScene.EnemyObj.healthBar o').
Proof.
  intros Hs Ht. unfold Enemy.interpolate, MainScene.interpolateEnemy. simpl.
  rewrite Hs, Ht. repeat split.
Qed.

(** [Enemy.interpolate] and the loop body of [interpolateEnemyPositions]
    are the same step: from the same sprite and target they draw the sprite
    at the same place after any number of frames, and put the health bar at
    the same place. *)
Theorem interpolate_agrees_with_scene (n : nat) (e : Enemy.t)
    (o : MainScene.EnemyObj.t) :
  Enemy.sprite e = MainScene.EnemyObj.sprite o ->
  Enemy.targetPosition e = MainScene.EnemyObj.targetPosition o ->
  let e' := Nat.iter (S n) Enemy.interpolate e in
  let o' := Nat.iter (S n) MainScene.interpolateEnemy o in
  Enemy.sprite e' = MainScene.EnemyObj.sprite o' /\
  Enemy.targetPosition e' = MainScene.EnemyObj.targetPosition o' /\
  rect_x (Enemy.healthBar e') = rect_x (MainScene.EnemyObj.healthBar o') /\
  rect_y (Enemy.healthBar e') = rect_y (MainScene.EnemyObj.healthBar o').
Proof.
  intros Hs Ht. cbv zeta.
  assert (H : Enemy.sprite (Nat.iter n Enemy.interpolate e)
              = MainScene.EnemyObj.sprite (Nat.iter n MainScene.interpolateEnemy o)
              /\ Enemy.targetPosition (Nat.iter n Enemy.interpolate e)
                 = MainScene.EnemyObj.targetPosition
                     (Nat.iter n MainScene.interpolateEnemy o)).
  { rewrite interpolate_frames_target, interpolateEnemy_frames_target.
    split; [|exact Ht].
    destruct (interpolate_frames_sprite n e) as [Ex Ey].
    destruct (interpolateEnemy_frames_sprite n o) as [Fx Fy].
    cbv zeta in *. rewrite Hs, Ht in *. rewrite <- Fx in Ex. rewrite <- Fy in Ey.
    destruct (Enemy.sprite (Nat.iter n Enemy.interpolate e)),
             (MainScene.EnemyObj.sprite (Nat.iter n MainScene.interpolateEnemy o)).
    simpl in *. congruence. }
  destruct H as [Hs' Ht'].
  change (Nat.iter (S n) Enemy.interpolate e)
    with (Enemy.interpolate (Nat.iter n Enemy.interpolate e)).
  change (Nat.iter (S n) MainScene.interpolateEnemy o)
    with (MainScene.interpolateEnemy (Nat.iter n MainScene.interpolateEnemy o)).
  apply interpolate_step_agrees; assumption.
Qed.

Lemma interpolate_agrees_with_scene_witness :
  let o := MainScene.EnemyObj.mk (mkPosition 0 0)
             (mkRectangle 0 (-30) 40 0x00ff00) 40 50 (mkPosition 0 0)
             (mkPosition 100 50) in
  let e' := Nat.iter 3 Enemy.interpolate far_enemy in
  let o' := Nat.iter 3 MainScene.interpolateEnemy o in
  Enemy.sprite far_enemy = MainScene.EnemyObj.sprite o /\
  Enemy.targetPosition far_enemy = MainScene.EnemyObj.targetPosition o /\
  Enemy.sprite e' = MainScene.EnemyObj.sprite o' /\
  Enemy.targetPosition e' = MainScene.EnemyObj.targetPosition o' /\
  rect_x (Enemy.healthBar e') = rect_x (MainScene.EnemyObj.healthBar o') /\
  rect_y (Enemy.healthBar e') = rect_y (MainScene.EnemyObj.healthBar o').
Proof.
  split; [reflexivity|]. split; [reflexivity|].
  apply (interpolate_agrees_with_scene 2 far_enemy
           (MainScene.EnemyObj.mk (mkPosition 0 0)
              (mkRectangle 0 (-30) 40 0x00ff00) 40 50 (mkPosition 0 0)
              (mkPosition 100 50))).
  - reflexivity.
  - reflexivity.
Defined.

(** ** The health bar *)

Lemma health_colour_thresholds (health maxHealth : Q) :
  0 < maxHealth ->
  health_colour (health / maxHealth) = bar_colour health maxHealth.
Proof.
  intros Hm. unfold health_colour, bar_colour.
  assert (Hhalf : 0.5 < health / maxHealth <-> maxHealth < 2 * health).
  { split; intros H.
    - assert (E : health == health / maxHealth * maxHealth) by (field; lra).
      rewrite E. nra.
    - apply Qlt_shift_div_l; [exact Hm | lra]. }
  assert (Hfifth : 0.2 < health / maxHealth <-> maxHealth < 5 * health).
  { split; intros H.
    - assert (E : health == health / maxHealth * maxHealth) by (field; lra).
      rewrite E. nra.
    - apply Qlt_shift_div_l; [exact Hm | lra]. }
  destruct (Qlt_le_dec 0.5 (health / maxHealth)) as [H1|H1];
    destruct (Qlt_le_dec maxHealth (2 * health)) as [H2|H2];
    try reflexivity.
  - apply Hhalf in H1. lra.
  - apply Hhalf in H2. lra.
  - destruct (Qlt_le_dec 0.2 (health / maxHealth)) as [H3|H3];
      destruct (Qlt_le_dec maxHealth (5 * health)) as [H4|H4];
      try reflexivity.
    + apply Hfifth in H3. lra.
    + apply Hfifth in H4. lra.
Qed.

(** For a positive maximum and a health between 0 and the maximum,
    [updateHealth] makes the bar 40 x health / maxHealth wide, between 0 and
    40, green when more than half of the health is left, yellow when more
    than a fifth is left, red otherwise; the sprite and the target stay. *)
Theorem updateHealth_bar (health : Q) (e : Enemy.t) :
  0 < Enemy.maxHealth e -> 0 <= health <= Enemy.maxHealth e ->
  let e' := Enemy.updateHealth health e in
  width (Enemy.healthBar e') == 40 * health / Enemy.maxHealth e /\
  0 <= width (Enemy.healthBar e') <= 40 /\
  fillColor (Enemy.healthBar e') = bar_colour health (Enemy.maxHealth e) /\
  Enemy.currentHealth e' = health /\
  Enemy.sprite e' = Enemy.sprite e /\
  Enemy.targetPosition e' = Enemy.targetPosition e.
Proof.
  intros Hm [Hh0 Hh1]. cbv zeta. simpl.
  assert (Hw : health / Enemy.maxHealth e * 40
               == 40 * health / Enemy.maxHealth e) by (field; lra).
  split; [exact Hw|]. split; [|split; [|auto]].
  - rewrite Hw. split.
    + apply Qle_shift_div_l; [exact Hm | lra].
    + apply Qle_shift_div_r; [exact Hm | lra].
  - apply health_colour_thresholds, Hm.
Qed.

Lemma updateHealth_bar_witness :
  let e' := Enemy.updateHealth 20 far_enemy in
  0 < Enemy.maxHealth far_enemy /\ 0 <= 20 <= Enemy.maxHealth far_enemy /\
  width (Enemy.healthBar e') == 40 * 20 / Enemy.maxHealth far_enemy /\
  0 <= width (Enemy.healthBar e') <= 40 /\
  fillColor (Enemy.healthBar e') = bar_colour 20 (Enemy.maxHealth far_enemy) /\
  Enemy.currentHealth e' = 20 /\
  Enemy.sprite e' = Enemy.sprite far_enemy /\
  Enemy.targetPosition e' = Enemy.targetPosition far_enemy.
Proof.
  split; [reflexivity|]. split; [split; discriminate|].
  apply (updateHealth_bar 20 far_enemy).
  - reflexivity.
  - split; discriminate.
Defined.

Example updateHealth_colours :
  fillColor (Enemy.healthBar (Enemy.updateHealth 26 far_enemy)) = 0x00ff00%Z /\
  fillColor (Enemy.healthBar (Enemy.updateHealth 25 far_enemy)) = 0xffff00%Z /\
  fillColor (Enemy.healthBar (Enemy.updateHealth 10 far_enemy)) = 0xff0000%Z.
Proof. vm_compute. auto. Qed.

End EnemyMore.

(* ================================================================== *)
(** * Further properties of the scene                                  *)
(* ================================================================== *)
Section SceneMore.
Import Frontend.
Import MainScene.

Variable state : GameState.t.

(** ** Everything in the snapshot is tracked *)

Lemma sync_enemy_keeps (s : t) (id k : string) :
  is_Some (enemies s !! k) -> is_Some (enemies (sync_enemy state s id) !! k).
Proof.
  intros Hk. destruct (decide (id = k)) as [->|Hne].
  - unfold sync_enemy, createEnemy.
    destruct (get (GameState.enemies state) k); [|exact Hk].
    destruct (enemies s !! k); simpl; rewrite lookup_insert_eq; eauto.
  - rewrite sync_enemy_other by exact Hne. exact Hk.
Qed.

Lemma sync_enemies_keeps (l : list string) (s : t) (k : string) :
  is_Some (enemies s !! k) ->
  is_Some (enemies (fold_left (sync_enemy state) l s) !! k).
Proof.
  revert s. induction l as [|id l IH]; intros s Hk; simpl; [exact Hk|].
  apply IH, sync_enemy_keeps, Hk.
Qed.

Lemma sync_enemies_present (l : list string) (s : t) (k : string) :
  is_Some (get (GameState.enemies state) k) -> k ∈ l ->
  is_Some (enemies (fold_left (sync_enemy state) l s) !! k).
Proof.
  intros [serverEnemy Hget]. revert s.
  induction l as [|id l IH]; intros s Hin; [inversion Hin|]. simpl.
  destruct (decide (id = k)) as [->|Hne].
  - apply sync_enemies_keeps. unfold sync_enemy, createEnemy. rewrite Hget.
    destruct (enemies s !! k); simpl; rewrite lookup_insert_eq; eauto.
  - apply IH. apply elem_of_cons in Hin as [Heq|Hin]; [congruence | exact Hin].
Qed.

(** After [updateGameState] the ids in [this.enemies] are exactly the ids
    of [state.enemies]. *)
Theorem updateGameState_enemy_ids (s : t) :
  dom (enemies (updateGameState state s))
  = list_to_set (keys (GameState.enemies state)).
Proof.
  apply set_eq. intros k.
  rewrite elem_of_dom, elem_of_list_to_set, updateGameState_enemies.
  split.
  - intros Hk. apply get_is_Some_keys.
    destruct (decide _) as [|Hno] in Hk; [destruct Hk; discriminate|].
    destruct (get (GameState.enemies state) k) eqn:Hget; [eauto|].
    exfalso. apply Hno. auto.
  - intros Hin.
    pose proof (proj2 (get_is_Some_keys _ k) Hin) as Hget.
    rewrite decide_False.
    + apply sync_enemies_present; assumption.
    + intros [_ Hnone]. rewrite Hnone in Hget. destruct Hget; discriminate.
Qed.

Lemma new_shown (playerData : PlayerData.t) :
  shown_at (PlayerData.position playerData) (Player.new playerData).
Proof. repeat split. Qed.

Lemma sync_player_keeps (s : t) (id k : string) :
  is_Some (players s !! k) -> is_Some (players (sync_player state s id) !! k).
Proof.
  intros [p Hk]. destruct (decide (id = k)) as [->|Hne].
  - unfold sync_player.
    destruct (get (GameState.players state) k); [|eauto].
    rewrite Hk. simpl. rewrite lookup_insert_eq. eauto.
  - rewrite (sync_player_other state s id k p Hne Hk). eauto.
Qed.

Lemma sync_player_visit (s : t) (id : string) (serverPlayer : PlayerData.t) :
  get (GameState.players state) id = Some serverPlayer ->
  (id <> playerId s -> PlayerData.playerId serverPlayer = id) ->
  exists p', players (sync_player state s id) !! id = Some p' /\
             shown_at (PlayerData.position serverPlayer) p'.
Proof.
  intros Hget Hkey.
  destruct (players s !! id) as [p|] eqn:Hp.
  - apply (sync_player_known state s id p serverPlayer Hp Hget).
  - unfold sync_player, createPlayer, createOtherPlayer. rewrite Hget, Hp.
    destruct (decide (id = playerId s)) as [Heq|Hne]; simpl.
    + rewrite <- Heq, lookup_insert_eq. eexists. split; [reflexivity|].
      apply new_shown.
    + rewrite (Hkey Hne), Hp. simpl. rewrite lookup_insert_eq.
      eexists. split; [reflexivity|]. apply new_shown.
Qed.

Lemma sync_players_visit (l : list string) (s : t) (id : string)
    (serverPlayer : PlayerData.t) :
  get (GameState.players state) id = Some serverPlayer ->
  (id <> playerId s -> PlayerData.playerId serverPlayer = id) ->
  id ∈ l ->
  exists p', players (fold_left (sync_player state) l s) !! id = Some p' /\
             shown_at (PlayerData.position serverPlayer) p'.
Proof.
  intros Hget. revert s.
  induction l as [|h l IH]; intros s Hkey Hin; [inversion Hin|]. simpl.
  destruct (decide (h = id)) as [->|Hne].
  - destruct (sync_player_visit s id serverPlayer Hget Hkey) as (p1 & Hp1 & Hs1).
    destruct (sync_players_known state l _ id p1 serverPlayer Hget Hp1)
      as (p' & Hp' & Hs').
    exists p'. split; [exact Hp' | apply Hs'; right; exact Hs1].
  - apply IH.
    + destruct (sync_player_frame state s h) as (-> & _). exact Hkey.
    + apply elem_of_cons in Hin as [Heq|Hin]; [congruence | exact Hin].
Qed.

(** If the entries of other players are stored under their own ids, then
    after [updateGameState] the ids in [this.players] are exactly the ids of
    [state.players], and every player of the snapshot, new or known, is
    drawn at its authoritative position. *)
Theorem updateGameState_player_ids (s : t) :
  keyed_by_playerId (playerId s) (GameState.players state) ->
  let s' := updateGameState state s in
  dom (players s') = list_to_set (keys (GameState.players state)) /\
  (forall id serverPlayer,
      get (GameState.players state) id = Some serverPlayer ->
      exists p', players s' !! id = Some p' /\
                 shown_at (PlayerData.position serverPlayer) p').
Proof.
  intros Hkeyed. cbv zeta.
  assert (Hall : forall id serverPlayer,
             get (GameState.players state) id = Some serverPlayer ->
             exists p', players (updateGameState state s) !! id = Some p' /\
                        shown_at (PlayerData.position serverPlayer) p').
  { intros id serverPlayer Hget.
    destruct (sync_players_visit (keys (GameState.players state)) s id
                serverPlayer Hget) as (p' & Hp' & Hs').
    - intros Hne. apply (Hkeyed id serverPlayer Hget Hne).
    - apply get_is_Some_keys. rewrite Hget. eauto.
    - exists p'. split; [|exact Hs'].
      rewrite updateGameState_players, decide_False; [exact Hp'|].
      intros [_ Hnone]. congruence. }
  split; [|exact Hall].
  apply set_eq. intros k. rewrite elem_of_dom, elem_of_list_to_set. split.
  - intros Hk. rewrite updateGameState_players in Hk.
    apply get_is_Some_keys.
    destruct (decide _) as [|Hno] in Hk; [destruct Hk; discriminate|].
    destruct (get (GameState.players state) k) eqn:Hget; [eauto|].
    exfalso. apply Hno. auto.
  - intros Hin. apply get_is_Some_keys in Hin as [serverPlayer Hget].
    destruct (Hall k serverPlayer Hget) as (p' & Hp' & _). eauto.
Qed.

(** ** Nothing present in the snapshot is destroyed *)

Lemma drop_player_appends (s : t) (id : string) :
  exists more, destroyed (drop_player state s id) = destroyed s ++ more /\
               Forall (missing_from state) more.
Proof.
  unfold drop_player.
  destruct (get (GameState.players state) id) eqn:Hget.
  - exists []. rewrite app_nil_r. split; [reflexivity | constructor].
  - destruct (players s !! id) as [p|]; simpl.
    + eexists. split; [reflexivity|]. repeat constructor. exact Hget.
    + exists []. rewrite app_nil_r. split; [reflexivity | constructor].
Qed.

Lemma drop_enemy_appends (s : t) (id : string) :
  exists more, destroyed (drop_enemy state s id) = destroyed s ++ more /\
               Forall (missing_from state) more.
Proof.
  unfold drop_enemy.
  destruct (get (GameState.enemies state) id) eqn:Hget.
  - exists []. rewrite app_nil_r. split; [reflexivity | constructor].
  - destruct (enemies s !! id) as [e|]; simpl.
    + eexists. split; [reflexivity|]. repeat constructor. exact Hget.
    + exists []. rewrite app_nil_r. split; [reflexivity | constructor].
Qed.

Lemma fold_appends (step : t -> string -> t) (l : list string) (s : t) :
  (forall a id, exists more,
      destroyed (step a id) = destroyed a ++ more /\
      Forall (missing_from state) more) ->
  exists more, destroyed (fold_left step l s) = destroyed s ++ more /\
               Forall (missing_from state) more.
Proof.
  intros Hstep. revert s. induction l as [|id l IH]; intros s; simpl.
  - exists []. rewrite app_nil_r. split; [reflexivity | constructor].
  - destruct (IH (step s id)) as (m2 & E2 & F2).
    destruct (Hstep s id) as (m1 & E1 & F1).
    exists (m1 ++ m2). rewrite E2, E1, app_assoc.
    split; [reflexivity | apply Forall_app; auto].
Qed.

(** [updateGameState] only adds to the record of destroyed objects, and
    every object it destroys was stored under an id that the snapshot
    lacks: nothing present in the snapshot is destroyed. *)
Theorem updateGameState_destroys_only_missing (s : t) :
  exists more,
    destroyed (updateGameState state s) = destroyed s ++ more /\
    Forall (missing_from state) more.
Proof.
  unfold updateGameState.
  set (s1 := fold_left (sync_player state) (keys (GameState.players state)) s).
  set (s2 := fold_left (drop_player state) (own_keys (players s1)) s1).
  set (s3 := fold_left (sync_enemy state) (keys (GameState.enemies state)) s2).
  destruct (fold_appends (drop_enemy state) (own_keys (enemies s3)) s3
              drop_enemy_appends) as (m4 & E4 & F4).
  destruct (fold_appends (drop_player state) (own_keys (players s1)) s1
              drop_player_appends) as (m2 & E2 & F2).
  exists (m2 ++ m4). rewrite E4. unfold s3.
  destruct (sync_enemies_frame state (keys (GameState.enemies state)) s2)
    as (_ & _ & ->).
  unfold s2. rewrite E2. unfold s1.
  destruct (sync_players_frame state (keys (GameState.players state)) s)
    as (_ & _ & ->).
  rewrite app_assoc. split; [reflexivity | apply Forall_app; auto].
Qed.

(** ** The health bar of a known enemy *)

Lemma sync_enemy_bar (s : t) (id : string) (e : EnemyObj.t)
    (serverEnemy : EnemyData.t) :
  enemies s !! id = Some e ->
  get (GameState.enemies state) id = Some serverEnemy ->
  exists e', enemies (sync_enemy state s id) !! id = Some e' /\
             bar_shows (EnemyData.health serverEnemy) e e'.
Proof.
  intros He Hget. unfold sync_enemy. rewrite Hget, He. simpl.
  eexists. split; [apply lookup_insert_eq|]. repeat split.
Qed.

Lemma sync_enemies_bar (l : list string) (s : t) (k : string)
    (e : EnemyObj.t) (serverEnemy : EnemyData.t) :
  get (GameState.enemies state) k = Some serverEnemy ->
  enemies s !! k = Some e ->
  exists e', enemies (fold_left (sync_enemy state) l s) !! k = Some e' /\
             EnemyObj.maxHealth e' = EnemyObj.maxHealth e /\
             EnemyObj.maxWidth e' = EnemyObj.maxWidth e /\
             (k ∈ l -> bar_shows (EnemyData.health serverEnemy) e e').
Proof.
  intros Hget. revert s e.
  induction l as [|id l IH]; intros s e He; simpl.
  - exists e. split; [exact He|]. split; [reflexivity|].
    split; [reflexivity|]. intros H; inversion H.
  - destruct (decide (id = k)) as [->|Hne].
    + destruct (sync_enemy_bar s k e serverEnemy He Hget)
        as (e1 & He1 & Hm1 & Hw1 & Hb1 & Hc1).
      destruct (IH _ _ He1) as (e' & He' & Hm' & Hw' & Hbar').
      exists e'. split; [exact He'|].
      split; [congruence|]. split; [congruence|]. intros _.
      destruct (decide (k ∈ l)) as [Hin|Hnin].
      * destruct (Hbar' Hin) as (B1 & B2 & B3 & B4).
        unfold bar_shows. rewrite <- Hm1, <- Hw1. auto.
      * rewrite (sync_enemies_untouched state l _ k Hnin) in He'.
        rewrite He1 in He'. injection He' as <-.
        repeat split; assumption.
    + pose proof (sync_enemy_other state s id k Hne) as Hk. rewrite He in Hk.
      destruct (IH _ _ Hk) as (e' & He' & Hm' & Hw' & Hbar').
      exists e'. split; [exact He'|]. split; [exact Hm'|].
      split; [exact Hw'|]. intros Hin. apply Hbar'.
      apply elem_of_cons in Hin as [Heq|Hin]; [congruence | exact Hin].
Qed.

(** For an enemy known to the scene, with a positive [maxHealth], that the
    snapshot reports with some health: after [updateGameState] its bar is
    health / maxHealth of [maxWidth] wide and green, yellow or red as more
    than a half, more than a fifth, or less of the maximum is left; the
    maximum is the health the enemy had when the scene first saw it. *)
Theorem updateGameState_health_bar (s : t) (id : string) (e : EnemyObj.t)
    (serverEnemy : EnemyData.t) :
  (0 < EnemyObj.maxHealth e)%Q ->
  enemies s !! id = Some e ->
  get (GameState.enemies state) id = Some serverEnemy ->
  exists e',
    enemies (updateGameState state s) !! id = Some e' /\
    EnemyObj.maxHealth e' = EnemyObj.maxHealth e /\
    (width (EnemyObj.healthBar e')
     == EnemyData.health serverEnemy / EnemyObj.maxHealth e
        * EnemyObj.maxWidth e)%Q /\
    fillColor (EnemyObj.healthBar e')
    = bar_colour (EnemyData.health serverEnemy) (EnemyObj.maxHealth e).
Proof.
  intros Hmax He Hget.
  destruct (sync_enemies_bar (keys (GameState.enemies state)) s id e
              serverEnemy Hget He) as (e' & He' & Hm' & Hw' & Hbar').
  destruct Hbar' as (_ & _ & B3 & B4).
  { apply get_is_Some_keys. rewrite Hget. eauto. }
  exists e'. split.
  - rewrite updateGameState_enemies, decide_False; [exact He'|].
    intros [_ Hnone]. congruence.
  - split; [exact Hm'|]. split; [rewrite B3; reflexivity|].
    rewrite B4. apply health_colour_thresholds, Hmax.
Qed.

End SceneMore.

(** Witnesses on the two sample snapshots. *)
Section SnapshotWitnesses.
Import Frontend.
Import MainScene.

Lemma first_snapshot_keyed : keyed_by_playerId "me" (GameState.players first_snapshot).
Proof.
  intros id serverPlayer Hget Hne. simpl in Hget.
  destruct (decide ("me"%string = id)) as [<-|_]; [contradiction|].
  destruct (decide ("other"%string = id)) as [<-|_]; [|discriminate].
  injection Hget as <-. reflexivity.
Defined.

Lemma updateGameState_player_ids_witness :
  let s := mk "me" ∅ ∅ [] in
  let s' := updateGameState first_snapshot s in
  keyed_by_playerId (playerId s) (GameState.players first_snapshot) /\
  dom (players s') = list_to_set (keys (GameState.players first_snapshot)) /\
  (forall id serverPlayer,
      get (GameState.players first_snapshot) id = Some serverPlayer ->
      exists p', players s' !! id = Some p' /\
                 shown_at (PlayerData.position serverPlayer) p').
Proof.
  split; [exact first_snapshot_keyed|].
  apply (updateGameState_player_ids first_snapshot (mk "me" ∅ ∅ [])
           first_snapshot_keyed).
Defined.

(** The condition on the keys is needed: an entry stored under another key
    than its [playerId] is created under the [playerId] by the first loop
    and destroyed by the second, in the same call. *)
Example miskeyed_snapshot_untracked :
  let s' := updateGameState miskeyed_snapshot (mk "me" ∅ ∅ []) in
  players s' = ∅ /\ length (destroyed s') = 1%nat.
Proof. vm_compute. auto. Qed.

Lemma updateGameState_health_bar_witness :
  let e := EnemyObj.mk (mkPosition 10 10) (mkRectangle 10 (-20) 40 0x00ff00)
                       40 50 (mkPosition 10 10) (mkPosition 10 10) in
  let serverEnemy := EnemyData.mk (mkPosition 20 30) 20 in
  (0 < EnemyObj.maxHealth e)%Q /\
  enemies joined_scene !! "e1" = Some e /\
  get (GameState.enemies second_snapshot) "e1" = Some serverEnemy /\
  exists e',
    enemies (updateGameState second_snapshot joined_scene) !! "e1" = Some e' /\
    EnemyObj.maxHealth e' = EnemyObj.maxHealth e /\
    (width (EnemyObj.healthBar e')
     == EnemyData.health serverEnemy / EnemyObj.maxHealth e
        * EnemyObj.maxWidth e)%Q /\
    fillColor (EnemyObj.healthBar e')
    = bar_colour (EnemyData.health serverEnemy) (EnemyObj.maxHealth e).
Proof.
  assert (H1 : enemies joined_scene !! "e1"
               = Some (EnemyObj.mk (mkPosition 10 10)
                         (mkRectangle 10 (-20) 40 0x00ff00)
                         40 50 (mkPosition 10 10) (mkPosition 10 10))).
  { vm_compute. reflexivity. }
  split; [reflexivity|]. split; [exact H1|]. split; [reflexivity|].
  apply (updateGameState_health_bar second_snapshot joined_scene "e1"
           (EnemyObj.mk (mkPosition 10 10) (mkRectangle 10 (-20) 40 0x00ff00)
                        40 50 (mkPosition 10 10) (mkPosition 10 10))
           (EnemyData.mk (mkPosition 20 30) 20)).
  - reflexivity.
  - exact H1.
  - reflexivity.
Defined.
End SnapshotWitnesses.

(* ================================================================== *)
(** * The socket events                                                *)
(* ================================================================== *)
Section SocketEvents.
Import Frontend.
Import MainScene.
Import Scene.

Lemma inherited_spec (id : string) :
  inherited id = true <-> id ∈ Object_prototype.
Proof. unfold inherited. apply bool_decide_eq_true. Qed.

Lemma not_inherited (id : string) :
  id ∉ Object_prototype -> inherited id = false.
Proof. unfold inherited. apply bool_decide_eq_false_2. Qed.

(** "playerJoined" adds a component under the player's id if the scene holds
    none under it and the id is not the name of a member that [this.players]
    inherits from [Object.prototype]; otherwise, and in particular for ids
    such as "toString", the event is dropped.  No component already in the
    scene is replaced or changed, a second "playerJoined" for the same id
    has no effect, and enemies and destroyed objects are not touched. *)
Theorem playerJoined_adds_once (playerData : PlayerData.t) (s : t) :
  let id := PlayerData.playerId playerData in
  let s1 := on_playerJoined playerData s in
  (forall k p, players s !! k = Some p -> players s1 !! k = Some p) /\
  (players s !! id = None -> id ∉ Object_prototype ->
   players s1 = <[id := Player.new playerData]> (players s)) /\
  (id ∈ Object_prototype -> s1 = s) /\
  (is_Some (players s !! id) -> s1 = s) /\
  (forall again, PlayerData.playerId again = id -> on_playerJoined again s1 = s1) /\
  playerId s1 = playerId s /\ enemies s1 = enemies s /\
  destroyed s1 = destroyed s.
Proof.
  cbv zeta. unfold on_playerJoined, createOtherPlayer.
  destruct (players s !! PlayerData.playerId playerData) as [p0|] eqn:Hid.
  - repeat split; try discriminate; auto.
    intros again Hagain. rewrite Hagain, Hid. reflexivity.
  - destruct (inherited (PlayerData.playerId playerData)) eqn:Hinh.
    + apply inherited_spec in Hinh as Hin.
      repeat split; auto.
      * intros _ Hnot. contradiction.
      * intros again Hagain. rewrite Hagain, Hid, Hinh. reflexivity.
    + simpl. repeat split; auto.
      * intros k p Hk. rewrite lookup_insert_ne; [exact Hk | congruence].
      * intros Hin. apply inherited_spec in Hin. congruence.
      * intros [? ?]; discriminate.
      * intros again Hagain. rewrite Hagain, lookup_insert_eq. reflexivity.
Qed.

Example playerJoined_toString_dropped :
  on_playerJoined (snapshot_entry "toString" 50 60) joined_scene = joined_scene.
Proof. vm_compute. reflexivity. Qed.

(** "playerLeft" for an id the scene holds destroys that component and
    deletes exactly that entry.  For an id the scene does not hold it does
    nothing, unless the id names a member inherited from [Object.prototype]:
    then the handler throws.  Whenever the handler returns, [this.players]
    has lost the id and nothing else, and enemies are untouched; a repeated
    event for an id that is not an inherited name has no further effect. *)
Theorem playerLeft_removes_one (leftPlayerId : string) (s : t) :
  (forall p, players s !! leftPlayerId = Some p ->
             on_playerLeft leftPlayerId s
             = Some (mk (playerId s) (delete leftPlayerId (players s))
                        (enemies s)
                        (destroyed s ++ [DestroyedPlayer leftPlayerId p]))) /\
  (players s !! leftPlayerId = None -> leftPlayerId ∉ Object_prototype ->
   on_playerLeft leftPlayerId s = Some s) /\
  (players s !! leftPlayerId = None -> leftPlayerId ∈ Object_prototype ->
   on_playerLeft leftPlayerId s = None) /\
  (forall s1, on_playerLeft leftPlayerId s = Some s1 ->
              players s1 = delete leftPlayerId (players s) /\
              playerId s1 = playerId s /\ enemies s1 = enemies s /\
              (leftPlayerId ∉ Object_prototype ->
               on_playerLeft leftPlayerId s1 = Some s1)).
Proof.
  unfold on_playerLeft.
  destruct (players s !! leftPlayerId) as [p|] eqn:Hid.
  - split; [intros p' [= <-]; reflexivity|].
    split; [discriminate|]. split; [discriminate|].
    intros s1 [= <-]. cbn [players playerId enemies destroyed].
    rewrite lookup_delete_eq.
    repeat split. intros Hnot. rewrite (not_inherited _ Hnot). reflexivity.
  - split; [discriminate|].
    destruct (inherited leftPlayerId) eqn:Hinh.
    + apply inherited_spec in Hinh as Hin.
      split; [intros _ Hnot; contradiction|]. split; [reflexivity|].
      intros s1 Hs1. discriminate Hs1.
    + split; [reflexivity|]. split.
      * intros _ Hin. apply inherited_spec in Hin. congruence.
      * intros s1 [= <-]. rewrite Hid.
        repeat split. symmetry. apply delete_id, Hid.
Qed.

Example playerLeft_toString_throws :
  on_playerLeft "toString" joined_scene = None /\
  on_playerLeft "nobody" joined_scene = Some joined_scene.
Proof. vm_compute. auto. Qed.

(** A player that joins under a free id that is not an inherited name and
    then leaves is gone without a trace in [this.players]; its component is
    the one that was destroyed. *)
Theorem playerJoined_then_playerLeft (playerData : PlayerData.t) (s : t) :
  players s !! PlayerData.playerId playerData = None ->
  PlayerData.playerId playerData ∉ Object_prototype ->
  let id := PlayerData.playerId playerData in
  exists s2,
    on_playerLeft id (on_playerJoined playerData s) = Some s2 /\
    players s2 = players s /\
    enemies s2 = enemies s /\
    destroyed s2 = destroyed s ++ [DestroyedPlayer id (Player.new playerData)].
Proof.
  intros Hfree Hnot. cbv zeta.
  unfold on_playerJoined, createOtherPlayer.
  rewrite !Hfree, (not_inherited _ Hnot).
  unfold on_playerLeft. simpl. rewrite lookup_insert_eq.
  eexists. split; [reflexivity|]. simpl.
  rewrite delete_insert_id by exact Hfree. auto.
Qed.

Lemma playerJoined_then_playerLeft_witness :
  let playerData := snapshot_entry "late" 50 60 in
  let id := PlayerData.playerId playerData in
  players joined_scene !! PlayerData.playerId playerData = None /\
  (PlayerData.playerId playerData ∉ Object_prototype) /\
  exists s2,
    on_playerLeft id (on_playerJoined playerData joined_scene) = Some s2 /\
    players s2 = players joined_scene /\
    enemies s2 = enemies joined_scene /\
    destroyed s2
    = destroyed joined_scene ++ [DestroyedPlayer id (Player.new playerData)].
Proof.
  assert (H : players joined_scene
              !! PlayerData.playerId (snapshot_entry "late" 50 60) = None).
  { vm_compute. reflexivity. }
  assert (Hnot : PlayerData.playerId (snapshot_entry "late" 50 60)
                 ∉ Object_prototype).
  { apply (bool_decide_unpack _). vm_compute. exact I. }
  split; [exact H|]. split; [exact Hnot|].
  apply (playerJoined_then_playerLeft (snapshot_entry "late" 50 60)
           joined_scene H Hnot).
Defined.

End SocketEvents.

(* ================================================================== *)
(** * The frame loop                                                   *)
(* ================================================================== *)
Section Frames.
Import Frontend.
Import Scene.

(** A frame with a local player and a keyboard emits exactly one packet: it
    carries the four key states; its action is attack if the space key
    fired, else walk if a cursor key is down, else idle; a walk packet
    faces the first direction, in the order up, down, left, right, whose key
    is down, any other packet faces where the player faced.  Without a local
    player nothing is emitted.  The enemies take one interpolation step
    either way. *)
Theorem update_emits (player : Player.t) (c : CursorKeys)
    (currentInputs : CurrentInputs.t) (s : MainScene.t) :
  let r := update (Some player) (Some c) currentInputs s in
  (exists packet direction,
      r.1.2 = Some packet /\
      Backend.Input.left packet = Some (left_isDown c) /\
      Backend.Input.right packet = Some (right_isDown c) /\
      Backend.Input.up packet = Some (up_isDown c) /\
      Backend.Input.down packet = Some (down_isDown c) /\
      Backend.Input.action packet = Some (frame_action c) /\
      Backend.Input.direction packet = Some direction /\
      (if decide (frame_action c = "walk"%string)
       then direction ∈ directions /\ isDown c direction = true /\
            List.find (isDown c) directions = Some direction
       else direction = Player.currentDirection player)) /\
  r.2 = MainScene.interpolateEnemyPositions s /\
  update None (Some c) currentInputs s
  = (currentInputs, None, MainScene.interpolateEnemyPositions s).
Proof.
  cbv zeta.
  destruct c as [[] [] [] [] []];
    (split; [|split; reflexivity]);
    do 2 eexists; (split; [reflexivity|]);
    cbn; repeat split; try reflexivity;
    unfold directions; rewrite ?elem_of_cons; auto 12.
Qed.

(** ** From the keyboard to the server player *)

(** When the record emitted by a frame is stored by [setInput] on a server
    player with no attack pending and processed by the next tick: the
    server sees an attack exactly if the space key fired, the player's
    action becomes the action of the frame and its direction the direction
    of the packet, and with no cursor key down a player inside the world
    does not move. *)
Theorem frame_packet_on_server (TICK_RATE : Q) (player : Player.t)
    (c : CursorKeys) (currentInputs : CurrentInputs.t) (s : MainScene.t)
    (sp : Backend.Player) (packet : Backend.Input.t) :
  (update (Some player) (Some c) currentInputs s).1.2 = Some packet ->
  is_attack (Backend.currentInput sp) = false ->
  Player.currentDirection player <> EmptyString ->
  let sp1 := Backend.setInput packet sp in
  let sp' := Backend.processInput TICK_RATE sp1 in
  Backend.isAttacking sp1 = space_checkDown c /\
  Backend.action sp' = frame_action c /\
  Some (Backend.direction sp') = Backend.Input.direction packet /\
  (any_down c = false -> in_world (Backend.position sp) ->
   (x (Backend.position sp') == x (Backend.position sp))%Q /\
   (y (Backend.position sp') == y (Backend.position sp))%Q).
Proof.
  intros Hpacket Hidle Hdir. cbv zeta.
  assert (Hstored : Backend.currentInput (Backend.setInput packet sp) = packet).
  { apply setInput_not_latched. intros Hatt.
    unfold is_attack in Hidle. apply bool_decide_eq_false in Hidle.
    contradiction. }
  assert (Hsame : Backend.position (Backend.setInput packet sp) = Backend.position sp
                  /\ Backend.speed (Backend.setInput packet sp) = Backend.speed sp).
  { unfold Backend.setInput. destruct (decide _); split; reflexivity. }
  destruct Hsame as [Hpos Hspd].
  assert (Hface : Backend.overwrite
                    (Backend.direction (Backend.setInput packet sp))
                    (Some (Player.currentDirection player))
                  = Player.currentDirection player).
  { unfold Backend.overwrite.
    destruct (String.eqb_spec (Player.currentDirection player) EmptyString);
      [contradiction | reflexivity]. }
  unfold Backend.isAttacking, Backend.processInput.
  cbn [Backend.action Backend.direction Backend.position].
  rewrite Hstored, Hpos, Hspd.
  destruct c as [[] [] [] [] []]; cbn in Hpacket; injection Hpacket as <-;
    cbn [playerInput Backend.Input.action Backend.Input.direction
         space_checkDown];
    (split; [reflexivity|]); (split; [reflexivity|]);
    (split; [first [reflexivity | rewrite Hface; reflexivity]|]);
    try (intros Hno; discriminate Hno).
  all: intros _ [Hx Hy]; unfold Backend.clamp, Backend.integrate; cbn;
    split; apply clamp_axis_inside; assumption.
Qed.

Lemma frame_packet_on_server_witness :
  let c := mkCursorKeys true false false false false in
  let packet := playerInput (CurrentInputs.mk (Some true) (Some false)
                               (Some false) (Some false)) "left" "walk" in
  let sp := server_player 1 0 in
  let sp1 := Backend.setInput packet sp in
  let sp' := Backend.processInput 60 sp1 in
  (update (Some client_player) (Some c) CurrentInputs.empty joined_scene).1.2
  = Some packet /\
  is_attack (Backend.currentInput sp) = false /\
  Player.currentDirection client_player <> EmptyString /\
  Backend.isAttacking sp1 = space_checkDown c /\
  Backend.action sp' = frame_action c /\
  Some (Backend.direction sp') = Backend.Input.direction packet /\
  (any_down c = false -> in_world (Backend.position sp) ->
   (x (Backend.position sp') == x (Backend.position sp))%Q /\
   (y (Backend.position sp') == y (Backend.position sp))%Q).
Proof.
  split; [reflexivity|]. split; [reflexivity|]. split; [discriminate|].
  apply (frame_packet_on_server 60 client_player
           (mkCursorKeys true false false false false)
           CurrentInputs.empty joined_scene (server_player 1 0)).
  - reflexivity.
  - reflexivity.
  - discriminate.
Defined.

Example frame_left_moves_server_player :
  let packet := playerInput (CurrentInputs.mk (Some true) (Some false)
                               (Some false) (Some false)) "left" "walk" in
  let sp' := Backend.processInput 60 (Backend.setInput packet (server_player 1 0)) in
  (x (Backend.position sp') == 400 - 100 / 60)%Q /\
  Backend.direction sp' = "left"%string /\ Backend.action sp' = "walk"%string.
Proof. vm_compute. auto. Qed.

End Frames.

(* ================================================================== *)
(** * Generated player ids                                             *)
(* ================================================================== *)
Section Identifiers.
Import Stdlib.Strings.Ascii.
Import Scene.

Lemma random_nibble (q : Q) :
  (0 <= q < 1)%Q ->
  (0 <= to_int32 (truncate (q * 16)) < 16)%Z /\
  to_int32 (truncate (q * 16)) = Qfloor (q * 16).
Proof.
  intros [H0 H1]. unfold truncate.
  destruct (Qlt_le_dec (q * 16) 0) as [Hneg|_]; [lra|].
  assert (Hlo : (0 <= Qfloor (q * 16))%Z).
  { change 0%Z with (Qfloor 0). apply Qfloor_resp_le. lra. }
  assert (Hhi : (Qfloor (q * 16) < 16)%Z).
  { rewrite Zlt_Qlt. eapply Qle_lt_trans; [apply Qfloor_le|].
    change (inject_Z 16) with 16%Q. lra. }
  unfold to_int32. rewrite Z.mod_small by lia. lia.
Qed.

Lemma toString16_digit (v : Z) :
  (0 <= v < 16)%Z -> toString16 v = String (hex_char v) EmptyString.
Proof.
  intros [H0 H1]. unfold toString16.
  destruct (Z.ltb_spec v 0); [lia|].
  rewrite Nat.add_1_r. simpl.
  destruct (Z.ltb_spec v 16); [reflexivity | lia].
Qed.

Lemma nibble_cases (r : Z) :
  (0 <= r < 16)%Z ->
  In r [0; 1; 2; 3; 4; 5; 6; 7; 8; 9; 10; 11; 12; 13; 14; 15]%Z.
Proof. intros H. simpl. lia. Qed.

Lemma uuid_digit_shape (c : ascii) (q : Q) :
  (0 <= q < 1)%Q -> Ascii.eqb c "x" || Ascii.eqb c "y" = true ->
  exists c', uuid_digit c q = String c' EmptyString /\ uuid_char c c'.
Proof.
  intros Hq Hxy. destruct (random_nibble q Hq) as [Hr _].
  unfold uuid_digit, uuid_char.
  set (r := to_int32 (truncate (q * 16))) in *.
  apply nibble_cases in Hr.
  destruct (Ascii.eqb c "x") eqn:Hx.
  - simpl in Hr.
    repeat (destruct Hr as [<-|Hr];
            [eexists; split; [vm_compute; reflexivity|];
             apply (bool_decide_unpack _); vm_compute; exact I|]).
    destruct Hr.
  - simpl in Hxy. rewrite Hxy. simpl in Hr.
    repeat (destruct Hr as [<-|Hr];
            [eexists; split; [vm_compute; reflexivity|];
             apply (bool_decide_unpack _); vm_compute; exact I|]).
    destruct Hr.
Qed.

Lemma replace_xy_shape (random : nat -> Q) (t : string) (k : nat) :
  (forall j, 0 <= random j < 1)%Q ->
  Forall2 uuid_char (String.list_ascii_of_string t)
          (String.list_ascii_of_string (replace_xy random k t)).
Proof.
  intros Hrandom. revert k.
  induction t as [|c rest IH]; intros k; simpl; [constructor|].
  destruct (Ascii.eqb c "x" || Ascii.eqb c "y") eqn:Hxy.
  - destruct (uuid_digit_shape c (random k) (Hrandom k) Hxy) as (c' & -> & Hc').
    simpl. constructor; [exact Hc' | apply IH].
  - simpl. constructor; [|apply IH].
    unfold uuid_char. apply orb_false_elim in Hxy as [-> ->]. reflexivity.
Qed.

Lemma get_list_ascii (s : string) (n : nat) :
  String.get n s = String.list_ascii_of_string s !! n.
Proof.
  revert n. induction s as [|c s IH]; intros [|n]; simpl; auto.
Qed.

Lemma length_list_ascii (s : string) :
  length (String.list_ascii_of_string s) = String.length s.
Proof. induction s as [|c s IH]; simpl; auto. Qed.

(** Whatever [Math.random()] returns in [0, 1), the generated id is 36
    characters long and follows the template position by position: a
    hexadecimal digit for every x, one of 8, 9, a, b for the y, the hyphens
    and the 4 in their places. *)
Theorem generateUUID_shape (random : nat -> Q) :
  (forall k, 0 <= random k < 1)%Q ->
  let uuid := generateUUID random in
  String.length uuid = 36%nat /\
  Forall2 uuid_char (String.list_ascii_of_string template) (String.list_ascii_of_string uuid) /\
  String.get 8 uuid = Some "-"%char /\ String.get 13 uuid = Some "-"%char /\
  String.get 18 uuid = Some "-"%char /\ String.get 23 uuid = Some "-"%char /\
  String.get 14 uuid = Some "4"%char /\
  exists variant, String.get 19 uuid = Some variant /\
                  variant ∈ String.list_ascii_of_string "89ab".
Proof.
  intros Hrandom. cbv zeta. unfold generateUUID.
  pose proof (replace_xy_shape random template 0 Hrandom) as Hshape.
  revert Hshape. generalize (replace_xy random 0 template). intros uuid Hshape.
  assert (Hat : forall n c,
             String.list_ascii_of_string template !! n = Some c ->
             exists c', String.get n uuid = Some c' /\ uuid_char c c').
  { intros n c Hn.
    destruct (Forall2_lookup_l _ _ _ _ _ Hshape Hn) as (c' & Hc' & Hcc').
    exists c'. rewrite get_list_ascii. auto. }
  split.
  { rewrite <- length_list_ascii, <- (Forall2_length _ _ _ Hshape).
    reflexivity. }
  split; [exact Hshape|].
  destruct (Hat 8%nat "-"%char eq_refl) as (c8 & -> & E8).
  destruct (Hat 13%nat "-"%char eq_refl) as (c13 & -> & E13).
  destruct (Hat 18%nat "-"%char eq_refl) as (c18 & -> & E18).
  destruct (Hat 23%nat "-"%char eq_refl) as (c23 & -> & E23).
  destruct (Hat 14%nat "4"%char eq_refl) as (c14 & -> & E14).
  destruct (Hat 19%nat "y"%char eq_refl) as (c19 & -> & E19).
  cbv in E8, E13, E18, E23, E14. subst.
  repeat split. exists c19. split; [reflexivity | exact E19].
Qed.

Lemma generateUUID_shape_witness :
  let random := fun k : nat => (inject_Z (Z.of_nat (k mod 7)) / 7)%Q in
  let uuid := generateUUID random in
  (forall k, 0 <= random k < 1)%Q /\
  String.length uuid = 36%nat /\
  Forall2 uuid_char (String.list_ascii_of_string template) (String.list_ascii_of_string uuid) /\
  String.get 8 uuid = Some "-"%char /\ String.get 13 uuid = Some "-"%char /\
  String.get 18 uuid = Some "-"%char /\ String.get 23 uuid = Some "-"%char /\
  String.get 14 uuid = Some "4"%char /\
  exists variant, String.get 19 uuid = Some variant /\
                  variant ∈ String.list_ascii_of_string "89ab".
Proof.
  assert (H : forall k : nat,
             (0 <= inject_Z (Z.of_nat (k mod 7)) / 7 < 1)%Q).
  { intros k. pose proof (Nat.mod_upper_bound k 7 ltac:(discriminate)) as Hk.
    assert (H0 : (0 <= inject_Z (Z.of_nat (k mod 7)))%Q).
    { change 0%Q with (inject_Z 0). rewrite <- Zle_Qle. lia. }
    assert (H1 : (inject_Z (Z.of_nat (k mod 7)) < 7)%Q).
    { change 7%Q with (inject_Z 7). rewrite <- Zlt_Qlt. lia. }
    split.
    - apply Qle_shift_div_l; [reflexivity | lra].
    - apply Qlt_shift_div_r; [reflexivity | lra]. }
  split; [exact H|].
  apply (generateUUID_shape
           (fun k : nat => (inject_Z (Z.of_nat (k mod 7)) / 7)%Q) H).
Defined.

Example generateUUID_sample :
  generateUUID (fun k : nat => (inject_Z (Z.of_nat (k mod 7)) / 7)%Q)
  = "02469bd0-2469-4bd0-a469-bd02469bd024"%string.
Proof. vm_compute. reflexivity. Qed.

End Identifiers.

(* ================================================================== *)
(** * Enemies seen for the first time                                  *)
(* ================================================================== *)
Section NewEnemies.
Import Frontend.
Import MainScene.

Variable state : GameState.t.

Lemma sync_enemies_settled (l : list string) (s : t) (id : string)
    (e : EnemyObj.t) (serverEnemy : EnemyData.t) :
  get (GameState.enemies state) id = Some serverEnemy ->
  enemies s !! id = Some e ->
  EnemyObj.targetPosition e = EnemyData.position serverEnemy ->
  exists e', enemies (fold_left (sync_enemy state) l s) !! id = Some e' /\
             EnemyObj.sprite e' = EnemyObj.sprite e /\
             EnemyObj.targetPosition e' = EnemyData.position serverEnemy /\
             EnemyObj.maxHealth e' = EnemyObj.maxHealth e.
Proof.
  intros Hget He Htarget.
  destruct (sync_enemies_known state l s id e serverEnemy Hget He)
    as (e' & He' & (Hsprite & _) & Hin).
  destruct (sync_enemies_bar state l s id e serverEnemy Hget He)
    as (e'' & He'' & Hmax & _).
  rewrite He' in He''. injection He'' as <-.
  exists e'. repeat split; try assumption.
  destruct (decide (id ∈ l)) as [Hl|Hl]; [apply Hin, Hl|].
  rewrite (sync_enemies_untouched state l s id Hl), He in He'.
  injection He' as <-. exact Htarget.
Qed.

Lemma sync_enemies_new (l : list string) (s : t) (id : string)
    (serverEnemy : EnemyData.t) :
  get (GameState.enemies state) id = Some serverEnemy ->
  enemies s !! id = None -> id ∈ l ->
  exists e', enemies (fold_left (sync_enemy state) l s) !! id = Some e' /\
             EnemyObj.sprite e' = EnemyData.position serverEnemy /\
             EnemyObj.targetPosition e' = EnemyData.position serverEnemy /\
             EnemyObj.maxHealth e' = EnemyData.health serverEnemy.
Proof.
  intros Hget. revert s.
  induction l as [|h l IH]; intros s Hnone Hin; [inversion Hin|]. simpl.
  destruct (decide (h = id)) as [->|Hne].
  - assert (Heta : forall pos : Position, mkPosition (x pos) (y pos) = pos)
      by (intros []; reflexivity).
    destruct (sync_enemies_settled l (sync_enemy state s id) id
                (EnemyObj.mk (EnemyData.position serverEnemy)
                   (mkRectangle (x (EnemyData.position serverEnemy))
                                (y (EnemyData.position serverEnemy) - 30)%Q
                                40%Q 0x00ff00%Z)
                   40%Q (EnemyData.health serverEnemy)
                   (EnemyData.position serverEnemy)
                   (EnemyData.position serverEnemy))
                serverEnemy Hget) as (e' & He' & Hs' & Ht' & Hm').
    + unfold sync_enemy, createEnemy. rewrite Hget, Hnone. simpl.
      rewrite lookup_insert_eq, !Heta. reflexivity.
    + reflexivity.
    + exists e'. auto.
  - apply IH.
    + rewrite sync_enemy_other by exact Hne. exact Hnone.
    + apply elem_of_cons in Hin as [Heq|Hin]; [congruence | exact Hin].
Qed.

(** An enemy that the scene did not know and the snapshot contains is, when
    [updateGameState] returns, drawn at its authoritative position, which is
    also its target, so that the frames do not move it until a later
    snapshot does; the health it arrives with is its maximum from then on. *)
Theorem updateGameState_new_enemy (s : t) (id : string)
    (serverEnemy : EnemyData.t) :
  enemies s !! id = None ->
  get (GameState.enemies state) id = Some serverEnemy ->
  exists e',
    enemies (updateGameState state s) !! id = Some e' /\
    EnemyObj.sprite e' = EnemyData.position serverEnemy /\
    EnemyObj.targetPosition e' = EnemyData.position serverEnemy /\
    EnemyObj.maxHealth e' = EnemyData.health serverEnemy.
Proof.
  intros Hnone Hget.
  destruct (sync_enemies_new (keys (GameState.enemies state)) s id
              serverEnemy Hget Hnone) as (e' & He' & Hrest).
  { apply get_is_Some_keys. rewrite Hget. eauto. }
  exists e'. split; [|exact Hrest].
  rewrite updateGameState_enemies, decide_False; [exact He'|].
  intros [_ Hmissing]. congruence.
Qed.
End NewEnemies.

Section NewEnemyWitness.
Import Frontend.
Import MainScene.

Lemma updateGameState_new_enemy_witness :
  let s := mk "me" ∅ ∅ [] in
  let serverEnemy := EnemyData.mk (mkPosition 700 500) 50 in
  enemies s !! "e2" = None /\
  get (GameState.enemies first_snapshot) "e2" = Some serverEnemy /\
  exists e',
    enemies (updateGameState first_snapshot s) !! "e2" = Some e' /\
    EnemyObj.sprite e' = EnemyData.position serverEnemy /\
    EnemyObj.targetPosition e' = EnemyData.position serverEnemy /\
    EnemyObj.maxHealth e' = EnemyData.health serverEnemy.
Proof.
  split; [reflexivity|]. split; [reflexivity|].
  apply (updateGameState_new_enemy first_snapshot (mk "me" ∅ ∅ []) "e2"
           (EnemyData.mk (mkPosition 700 500) 50)).
  - reflexivity.
  - reflexivity.
Defined.
End NewEnemyWitness.

(* ================================================================== *)
(** * One completion handler at a time                                 *)
(* ================================================================== *)
Section OneHandler.
Import Frontend.

(** Whatever has happened to a component, it has one completion handler
    registered while its flag is set and none otherwise, and a further
    attack request while the flag is set registers no second one. *)
Theorem attack_registers_one_handler (playerData : PlayerData.t)
    (events : list PlayerEvent) (direction : option string) :
  let p := fold_left react events (Player.new playerData) in
  let again := Player.playAnimation "attack" direction p in
  (onComplete (Player.sprite p) <= 1)%nat /\
  (onComplete (Player.sprite p) = 1%nat <-> Player.isAttacking p = true) /\
  (Player.isAttacking p = true ->
   onComplete (Player.sprite again) = onComplete (Player.sprite p)) /\
  onComplete (Player.sprite again) = 1%nat.
Proof.
  cbv zeta.
  pose proof (handler_pending_reachable playerData events) as Hp.
  pose proof (handler_pending_react _ (CallPlayAnimation "attack" direction) Hp)
    as Hagain.
  set (p := fold_left react events (Player.new playerData)) in *.
  simpl in Hagain. unfold handler_pending in *.
  assert (Hset : Player.isAttacking (Player.playAnimation "attack" direction p)
                 = true).
  { unfold Player.playAnimation.
    destruct (Player.isAttacking p) eqn:Hatt; [exact Hatt | reflexivity]. }
  rewrite Hset in Hagain. rewrite Hp.
  destruct (Player.isAttacking p) eqn:Hatt.
  - repeat split; auto.
  - repeat split; auto; discriminate.
Qed.
End OneHandler.
